(** * ocpp/routing.py: handler registration and the route map

    A shallow embedding of [src/ocpp/routing.py]: the process-wide registry
    [routables], the three decorators [on_typed], [on] and [after], and
    [create_route_map].  Python's mutable state and exceptions are written
    out with a small state-and-exception monad in which, as in Python, the
    state written before an exception is raised stays written.  The loop is
    embedded twice: over typed instances, whose attributes are functions
    with enumeration members as actions, and, in [Dynamic], over arbitrary
    objects, where reading an attribute may raise and an action may have no
    hash; the two agree on typed instances. *)

From stdpp Require Import gmap strings list fin_maps.

(** ** Python values, exceptions *)

(** The values handlers receive and return.  [VObject] is an instance of a
    class, built from keyword arguments. *)
#[warnings="-register-all"]
Inductive Value :=
| VNone
| VBool (b : bool)
| VInt (z : Z)
| VStr (s : string)
| VObject (cls : string) (fields : list (string * Value)).

(** [**kwargs]: the keyword dictionary, in call order. *)
Abbreviation Kwargs := (list (string * Value)).

Inductive exn :=
| AttributeError
| KeyError
| TypeError
| ValueError
| Exception (msg : string).

Global Instance exn_eq_dec : EqDecision exn.
Proof. solve_decision. Defined.

(** The outcome of an expression: a value or a raised exception. *)
Inductive Except (A : Type) :=
| Ok (a : A)
| Raise (e : exn).
Arguments Ok {A} a.
Arguments Raise {A} e.

Definition Except_bind {A B} (m : Except A) (k : A → Except B) : Except B :=
  match m with
  | Ok a => k a
  | Raise e => Raise e
  end.

(** A statement over a mutable state [S]: it returns an outcome and the
    state it leaves, also when it raises. *)
Definition Py (S A : Type) : Type := S → Except A * S.

Definition ret {S A} (a : A) : Py S A := λ s, (Ok a, s).

Definition raise {S A} (e : exn) : Py S A := λ s, (Raise e, s).

Definition bind {S A B} (m : Py S A) (k : A → Py S B) : Py S B :=
  λ s, match m s with
       | (Ok a, s') => k a s'
       | (Raise e, s') => (Raise e, s')
       end.

Definition lift {S A} (m : Except A) : Py S A := λ s, (m, s).

Definition get {S} : Py S S := λ s, (Ok s, s).

Definition put {S} (s : S) : Py S unit := λ _, (Ok tt, s).

(** [try: m  except: h e] *)
Definition try_except {S A} (m : Py S A) (h : exn → Py S A) : Py S A :=
  λ s, match m s with
       | (Ok a, s') => (Ok a, s')
       | (Raise e, s') => h e s'
       end.

Declare Scope py_scope.
Delimit Scope py_scope with py.
Notation "'let!' x ':=' m 'in' k" := (bind m (λ x, k))
  (at level 10, x name, m at level 100, k at level 200) : py_scope.
Notation "m ';;' k" := (bind m (λ _, k))
  (at level 100, k at level 200, right associativity) : py_scope.
Open Scope py_scope.

(** [for x in xs: body x] *)
Fixpoint for_ {S B} (xs : list B) (body : B → Py S unit) : Py S unit :=
  match xs with
  | [] => ret tt
  | x :: xs' => body x ;; for_ xs' body
  end.

(** ** The action enumeration

    [enums.Action] is imported from [ocpp.v16]; its table of members is a
    parameter of [on_typed].  A member has a name and a value, as in
    [Action.boot_notification = "BootNotification"]. *)
Record Action := {
  member_name : string;
  member_value : string
}.

Global Instance Action_eq_dec : EqDecision Action.
Proof. solve_decision. Defined.

Global Instance Action_countable : Countable Action :=
  inj_countable' (λ a, (member_name a, member_value a))
                 (λ p, {| member_name := p.1; member_value := p.2 |})
                 (λ a, match a with Build_Action _ _ => eq_refl end).

(** Calling an enumeration class, [enums.Action(value)]: the first member
    with that value, [ValueError] when there is none. *)
Definition Enum_call (members : list Action) (value : string) : Except Action :=
  match List.find (λ m, bool_decide (member_value m = value)) members with
  | Some m => Ok m
  | None => Raise ValueError
  end.

(** ** Handlers *)

(** A function object: what calling it on a tuple of positional arguments
    and a dictionary of keyword arguments gives, its [__name__], and the
    three attributes the decorators set on it (absent: [None]). *)
Record Callable := {
  __name__ : string;
  __call__ : list Value → Kwargs → Except Value;
  _on_action : option Action;
  _after_action : option Action;
  _skip_schema_validation : option bool
}.

(** A request class [type[CallT]]: its [__name__] and its constructor
    [call_type] applied to [kwargs], which may raise. *)
Record CallType := {
  type_name : string;
  construct : Kwargs → Except Value
}.

(** ** The registry and the decorators *)

(** [if func.__name__ not in routables: routables.append(func.__name__)] *)
Definition append_if_absent (name : string) : Py (list string) unit :=
  let! routables := get in
  if bool_decide (name ∈ routables) then ret tt else put (routables ++ [name]).

(** The value [kwargs] holds under [key], and [kwargs] without that key. *)
Definition kwargs_get (key : string) (kwargs : Kwargs) : option Value :=
  snd <$> List.find (λ kv, bool_decide (kv.1 = key)) kwargs.

Definition kwargs_del (key : string) (kwargs : Kwargs) : Kwargs :=
  filter (λ kv, kv.1 ≠ key) kwargs.

(** Python's binding of a call to the parameters [(self, **kwargs)]: one
    positional argument is bound to [self], and a keyword [self] beside it
    is a [TypeError] (multiple values for the argument); with no positional
    argument, [self] is taken from the keywords, and is missing without
    one; more positional arguments are a [TypeError].  The other keywords
    are gathered in [kwargs]. *)
Definition bind_self_kwargs (args : list Value) (kwargs : Kwargs)
  : Except (Value * Kwargs) :=
  match args, kwargs_get "self" kwargs with
  | [self], None => Ok (self, kwargs)
  | [], Some self => Ok (self, kwargs_del "self" kwargs)
  | _, _ => Raise TypeError
  end.

(** [inner] of [on_typed], with signature [(self, **kwargs)]: the call is
    bound to the two parameters, then the body runs.  [functools.wraps]
    copies [__name__] and the function's attribute dictionary before the
    two assignments. *)
Definition on_typed_inner (action : Action) (call_type : CallType)
    (skip_schema_validation : bool) (func : Callable) : Callable :=
  {| __name__ := __name__ func;
     __call__ := λ args kwargs,
       Except_bind (bind_self_kwargs args kwargs) (λ bound,
       let self := bound.1 in
       let kwargs := bound.2 in
       Except_bind (construct call_type kwargs) (λ request,
       __call__ func [self; request] []));
     _on_action := Some action;
     _after_action := _after_action func;
     _skip_schema_validation := Some skip_schema_validation |}.

Definition on_typed (members : list Action) (call_type : CallType)
    (skip_schema_validation : bool) (func : Callable)
  : Py (list string) Callable :=
  let! action := lift (Enum_call members (type_name call_type)) in
  let inner := on_typed_inner action call_type skip_schema_validation func in
  append_if_absent (__name__ func) ;;
  ret inner.

Definition on_inner (action : Action) (skip_schema_validation : bool)
    (func : Callable) : Callable :=
  {| __name__ := __name__ func;
     __call__ := λ args kwargs, __call__ func args kwargs;
     _on_action := Some action;
     _after_action := _after_action func;
     _skip_schema_validation := Some skip_schema_validation |}.

Definition on (action : Action) (skip_schema_validation : bool)
    (func : Callable) : Py (list string) Callable :=
  let inner := on_inner action skip_schema_validation func in
  append_if_absent (__name__ func) ;;
  ret inner.

Definition after_inner (action : Action) (func : Callable) : Callable :=
  {| __name__ := __name__ func;
     __call__ := λ args kwargs, __call__ func args kwargs;
     _on_action := _on_action func;
     _after_action := Some action;
     _skip_schema_validation := _skip_schema_validation func |}.

Definition after (action : Action) (func : Callable) : Py (list string) Callable :=
  let inner := after_inner action func in
  append_if_absent (__name__ func) ;;
  ret inner.

(** ** The route map *)

(** An endpoint instance, seen through [getattr(obj, name)]. *)
Abbreviation Instance := (gmap string Callable).

(** The two keys the inner loop goes through. *)
Inductive RouteOption := opt_on_action | opt_after_action.

(** One value of the route map: a dictionary with at most the keys
    ["_on_action"], ["_after_action"] and ["_skip_schema_validation"]. *)
Record RouteEntry := {
  entry_on_action : option Callable;
  entry_after_action : option Callable;
  entry_skip_schema_validation : option bool
}.

Abbreviation Routes := (gmap Action RouteEntry).

(** [{}] *)
Definition empty_entry : RouteEntry :=
  {| entry_on_action := None;
     entry_after_action := None;
     entry_skip_schema_validation := None |}.

(** [getattr(obj, attr_name)] *)
Definition getattr (obj : Instance) (attr_name : string) : Except Callable :=
  match obj !! attr_name with
  | Some attr => Ok attr
  | None => Raise AttributeError
  end.

(** [getattr(attr, option)] *)
Definition getattr_option (attr : Callable) (option : RouteOption) : Except Action :=
  match option with
  | opt_on_action =>
      match _on_action attr with Some a => Ok a | None => Raise AttributeError end
  | opt_after_action =>
      match _after_action attr with Some a => Ok a | None => Raise AttributeError end
  end.

(** [action in routes] *)
Definition contains (action : Action) : Py Routes bool :=
  let! routes := get in
  ret (bool_decide (is_Some (routes !! action))).

(** [routes[action] = entry] *)
Definition setitem (action : Action) (entry : RouteEntry) : Py Routes unit :=
  let! routes := get in
  put (<[action := entry]> routes).

(** [routes[action][key] = v], as a change [f] of the inner dictionary;
    [KeyError] when [routes] has no such action. *)
Definition setitem_inner (action : Action) (f : RouteEntry → RouteEntry)
  : Py Routes unit :=
  let! routes := get in
  match routes !! action with
  | Some entry => put (<[action := f entry]> routes)
  | None => raise KeyError
  end.

Definition set_skip (v : bool) (e : RouteEntry) : RouteEntry :=
  {| entry_on_action := entry_on_action e;
     entry_after_action := entry_after_action e;
     entry_skip_schema_validation := Some v |}.

Definition set_option (option : RouteOption) (attr : Callable) (e : RouteEntry)
  : RouteEntry :=
  match option with
  | opt_on_action =>
      {| entry_on_action := Some attr;
         entry_after_action := entry_after_action e;
         entry_skip_schema_validation := entry_skip_schema_validation e |}
  | opt_after_action =>
      {| entry_on_action := entry_on_action e;
         entry_after_action := Some attr;
         entry_skip_schema_validation := entry_skip_schema_validation e |}
  end.

(** The body of the [try] block. *)
Definition route_body (obj : Instance) (attr_name : string) (option : RouteOption)
  : Py Routes unit :=
  let! attr := lift (getattr obj attr_name) in
  let! action := lift (getattr_option attr option) in
  let! present := contains action in
  (if present then ret tt else setitem action empty_entry) ;;
  (match option with
   | opt_on_action =>
       setitem_inner action
         (set_skip (default false (_skip_schema_validation attr)))
   | opt_after_action => ret tt
   end) ;;
  setitem_inner action (set_option option attr).

(** [except AttributeError: continue] *)
Definition except_AttributeError (e : exn) : Py Routes unit :=
  match e with
  | AttributeError => ret tt
  | _ => raise e
  end.

Definition route_loop (obj : Instance) (routables : list string) : Py Routes unit :=
  for_ routables (λ attr_name,
    for_ [opt_on_action; opt_after_action] (λ option,
      try_except (route_body obj attr_name option) except_AttributeError)).

(** [create_route_map(obj)], reading the registry [routables]. *)
Definition create_route_map (obj : Instance) (routables : list string)
  : Except Routes :=
  match route_loop obj routables ∅ with
  | (Ok _, routes) => Ok routes
  | (Raise e, _) => Raise e
  end.

(** ** What the loop computes, without the monad *)

(** The action an attribute carries under [option], if any. *)
Definition option_action (option : RouteOption) (attr : Callable)
  : Datatypes.option Action :=
  match option with
  | opt_on_action => _on_action attr
  | opt_after_action => _after_action attr
  end.

(** The entry one pass of the [try] block leaves for its action, from the
    entry [e] that was there ([None]: no entry yet). *)
Definition claim_entry (option : RouteOption) (attr : Callable)
    (e : Datatypes.option RouteEntry) : RouteEntry :=
  let e0 := default empty_entry e in
  set_option option attr
    match option with
    | opt_on_action => set_skip (default false (_skip_schema_validation attr)) e0
    | opt_after_action => e0
    end.

Definition apply_option (attr : Callable) (option : RouteOption) (routes : Routes)
  : Routes :=
  match option_action option attr with
  | Some action => <[action := claim_entry option attr (routes !! action)]> routes
  | None => routes
  end.

Definition apply_name (obj : Instance) (routes : Routes) (attr_name : string)
  : Routes :=
  match obj !! attr_name with
  | Some attr => apply_option attr opt_after_action (apply_option attr opt_on_action routes)
  | None => routes
  end.

(** The attributes the registered names resolve to on [obj], in registry
    order. *)
Definition resolved (obj : Instance) (routables : list string) : list Callable :=
  omap (λ attr_name, obj !! attr_name) routables.

(** Those of them that carry [action] under [option]. *)
Definition claimants (option : RouteOption) (obj : Instance)
    (routables : list string) (action : Action) : list Callable :=
  filter (λ attr, option_action option attr = Some action) (resolved obj routables).

(** The entry for [action] read off the registry: the last claimant of each
    role, and the flag of the last primary claimant. *)
Definition entry_spec (obj : Instance) (routables : list string) (action : Action)
  : option RouteEntry :=
  match last (claimants opt_on_action obj routables action),
        last (claimants opt_after_action obj routables action) with
  | None, None => None
  | p, q =>
      Some {| entry_on_action := p;
              entry_after_action := q;
              entry_skip_schema_validation :=
                (λ attr, default false (_skip_schema_validation attr)) <$> p |}
  end.

(** The handler an entry holds under [option]. *)
Definition entry_option (option : RouteOption) (e : RouteEntry)
  : Datatypes.option Callable :=
  match option with
  | opt_on_action => entry_on_action e
  | opt_after_action => entry_after_action e
  end.

(** ** Registrations *)

(** One application of a decorator to a function. *)
Inductive Registration :=
| RegOn (action : Action) (skip_schema_validation : bool) (func : Callable)
| RegOnTyped (call_type : CallType) (skip_schema_validation : bool) (func : Callable)
| RegAfter (action : Action) (func : Callable).

Definition reg_func (r : Registration) : Callable :=
  match r with
  | RegOn _ _ func | RegOnTyped _ _ func | RegAfter _ func => func
  end.

Definition register (members : list Action) (r : Registration)
  : Py (list string) Callable :=
  match r with
  | RegOn action skip func => on action skip func
  | RegOnTyped call_type skip func => on_typed members call_type skip func
  | RegAfter action func => after action func
  end.

(** The registry after a sequence of registrations, each run to its end
    whether it returns or raises. *)
Definition register_all (members : list Action) (rs : list Registration)
    (routables : list string) : list string :=
  foldl (λ routables r, (register members r routables).2) routables rs.

(** ** Sample data: a small enumeration, handlers and endpoint classes *)

Definition boot_notification : Action :=
  {| member_name := "boot_notification"; member_value := "BootNotification" |}.

Definition heartbeat : Action :=
  {| member_name := "heartbeat"; member_value := "Heartbeat" |}.

Definition reset : Action :=
  {| member_name := "reset"; member_value := "Reset" |}.

Definition sample_members : list Action := [boot_notification; heartbeat; reset].

(** A plain function [def name(self, **kwargs)] that returns an object
    holding its keyword arguments. *)
Definition plain (name : string) : Callable :=
  {| __name__ := name;
     __call__ := λ args kwargs,
       match args with
       | [_] => Ok (VObject name kwargs)
       | _ => Raise TypeError
       end;
     _on_action := None;
     _after_action := None;
     _skip_schema_validation := None |}.

(** A typed handler [def name(self, request)] that returns its request. *)
Definition typed (name : string) : Callable :=
  {| __name__ := name;
     __call__ := λ args kwargs,
       match args, kwargs with
       | [_; request], [] => Ok request
       | _, _ => Raise TypeError
       end;
     _on_action := None;
     _after_action := None;
     _skip_schema_validation := None |}.

(** A request class named [name] with the one field [reason]. *)
Definition sample_type (name : string) : CallType :=
  {| type_name := name;
     construct := λ kwargs,
       match kwargs with
       | [(field, v)] =>
           if bool_decide (field = "reason") then Ok (VObject name kwargs)
           else Raise TypeError
       | _ => Raise TypeError
       end |}.

(** A request class named [name] that accepts any fields. *)
Definition open_type (name : string) : CallType :=
  {| type_name := name;
     construct := λ kwargs, Ok (VObject name kwargs) |}.

(** [class C] with [@on(Action.heartbeat) def h1] and
    [@after(Action.heartbeat) def h2], and an instance of it. *)
Definition h1 : Callable := on_inner heartbeat false (plain "h1").
Definition h2 : Callable := after_inner heartbeat (plain "h2").
Definition C_instance : Instance := <["h2" := h2]> (<["h1" := h1]> ∅).

(** A subclass of [C] that overrides [h1] without a decorator. *)
Definition Override_instance : Instance := <["h1" := plain "h1"]> C_instance.

(** A class with the post handler only. *)
Definition Post_only_instance : Instance := {["h2" := h2]}.

(** A class with two primary handlers for [Action.reset], defined in the
    order [first_reset], [second_reset]. *)
Definition first_reset : Callable := on_inner reset false (plain "first_reset").
Definition second_reset : Callable := on_inner reset true (plain "second_reset").
Definition Two_resets_instance : Instance :=
  <["second_reset" := second_reset]> (<["first_reset" := first_reset]> ∅).

(** ** Further notions used to state what the code does *)

(** Whether a registration returns: [on] and [after] always do, [on_typed]
    when the enumeration call on the type's name does. *)
Definition registration_returns (members : list Action) (r : Registration) : bool :=
  match r with
  | RegOn _ _ _ | RegAfter _ _ => true
  | RegOnTyped call_type _ _ =>
      match Enum_call members (type_name call_type) with
      | Ok _ => true
      | Raise _ => false
      end
  end.

(** Whether [attr_name] resolves on [obj] to an attribute with [_on_action]
    or [_after_action]. *)
Definition carries_tag (obj : Instance) (attr_name : string) : bool :=
  match obj !! attr_name with
  | Some attr =>
      match _on_action attr, _after_action attr with
      | None, None => false
      | _, _ => true
      end
  | None => false
  end.

(** An instance of [C] with one more attribute, never decorated. *)
Definition C_with_helper : Instance := <["helper" := plain "helper"]> C_instance.

(** A class with [@on_typed(Reset, skip_schema_validation=True) def on_reset]. *)
Definition on_reset : Callable :=
  on_typed_inner reset (sample_type "Reset") true (typed "on_reset").
Definition Typed_instance : Instance := {["on_reset" := on_reset]}.

(** ** The route map over arbitrary objects

    [create_route_map] takes any object, and [on] and [after] store any
    value as action.  This second embedding of the decorators' assignments
    and of the loop keeps what the first one excludes by its types: reading
    an attribute of the object may raise any exception (a property), and an
    action may be a value without a hash. *)

Module Dynamic.

(** A value stored as action: an enumeration member, or a list, which has
    no hash. *)
Inductive ActionValue :=
| Hashable (action : Action)
| Unhashable (items : list Value).

Record Function := {
  __name__ : string;
  __call__ : list Value → Kwargs → Except Value;
  _on_action : option ActionValue;
  _after_action : option ActionValue;
  _skip_schema_validation : option bool
}.

(** An object, by what reading each of its attributes does: it gives a
    function or raises.  A name the object does not have raises
    [AttributeError]. *)
Abbreviation Instance := (gmap string (Except Function)).

Record RouteEntry := {
  entry_on_action : option Function;
  entry_after_action : option Function;
  entry_skip_schema_validation : option bool
}.

Abbreviation Routes := (gmap Action RouteEntry).

Definition on_inner (action : ActionValue) (skip_schema_validation : bool)
    (func : Function) : Function :=
  {| __name__ := __name__ func;
     __call__ := λ args kwargs, __call__ func args kwargs;
     _on_action := Some action;
     _after_action := _after_action func;
     _skip_schema_validation := Some skip_schema_validation |}.

Definition on (action : ActionValue) (skip_schema_validation : bool)
    (func : Function) : Py (list string) Function :=
  let inner := on_inner action skip_schema_validation func in
  append_if_absent (__name__ func) ;;
  ret inner.

Definition after_inner (action : ActionValue) (func : Function) : Function :=
  {| __name__ := __name__ func;
     __call__ := λ args kwargs, __call__ func args kwargs;
     _on_action := _on_action func;
     _after_action := Some action;
     _skip_schema_validation := _skip_schema_validation func |}.

Definition after (action : ActionValue) (func : Function)
  : Py (list string) Function :=
  let inner := after_inner action func in
  append_if_absent (__name__ func) ;;
  ret inner.

Definition empty_entry : RouteEntry :=
  {| entry_on_action := None;
     entry_after_action := None;
     entry_skip_schema_validation := None |}.

(** [getattr(obj, attr_name)] *)
Definition getattr (obj : Instance) (attr_name : string) : Except Function :=
  match obj !! attr_name with
  | Some outcome => outcome
  | None => Raise AttributeError
  end.

(** [getattr(attr, option)] *)
Definition getattr_option (attr : Function) (option : RouteOption)
  : Except ActionValue :=
  match option with
  | opt_on_action =>
      match _on_action attr with Some a => Ok a | None => Raise AttributeError end
  | opt_after_action =>
      match _after_action attr with Some a => Ok a | None => Raise AttributeError end
  end.

(** [hash(action)], which every dictionary operation on the key starts
    with. *)
Definition hash (action : ActionValue) : Except Action :=
  match action with
  | Hashable key => Ok key
  | Unhashable _ => Raise TypeError
  end.

(** [action in routes] *)
Definition contains (action : ActionValue) : Py Routes bool :=
  let! key := lift (hash action) in
  let! routes := get in
  ret (bool_decide (is_Some (routes !! key))).

(** [routes[action] = entry] *)
Definition setitem (action : ActionValue) (entry : RouteEntry) : Py Routes unit :=
  let! key := lift (hash action) in
  let! routes := get in
  put (<[key := entry]> routes).

(** [routes[action][key] = v], as a change [f] of the inner dictionary. *)
Definition setitem_inner (action : ActionValue) (f : RouteEntry → RouteEntry)
  : Py Routes unit :=
  let! key := lift (hash action) in
  let! routes := get in
  match routes !! key with
  | Some entry => put (<[key := f entry]> routes)
  | None => raise KeyError
  end.

Definition set_skip (v : bool) (e : RouteEntry) : RouteEntry :=
  {| entry_on_action := entry_on_action e;
     entry_after_action := entry_after_action e;
     entry_skip_schema_validation := Some v |}.

Definition set_option (option : RouteOption) (attr : Function) (e : RouteEntry)
  : RouteEntry :=
  match option with
  | opt_on_action =>
      {| entry_on_action := Some attr;
         entry_after_action := entry_after_action e;
         entry_skip_schema_validation := entry_skip_schema_validation e |}
  | opt_after_action =>
      {| entry_on_action := entry_on_action e;
         entry_after_action := Some attr;
         entry_skip_schema_validation := entry_skip_schema_validation e |}
  end.

(** The body of the [try] block. *)
Definition route_body (obj : Instance) (attr_name : string) (option : RouteOption)
  : Py Routes unit :=
  let! attr := lift (getattr obj attr_name) in
  let! action := lift (getattr_option attr option) in
  let! present := contains action in
  (if present then ret tt else setitem action empty_entry) ;;
  (match option with
   | opt_on_action =>
       setitem_inner action
         (set_skip (default false (_skip_schema_validation attr)))
   | opt_after_action => ret tt
   end) ;;
  setitem_inner action (set_option option attr).

(** [except AttributeError: continue]; any other exception goes on. *)
Definition except_AttributeError (e : exn) : Py Routes unit :=
  match e with
  | AttributeError => ret tt
  | _ => raise e
  end.

Definition route_loop (obj : Instance) (routables : list string) : Py Routes unit :=
  for_ routables (λ attr_name,
    for_ [opt_on_action; opt_after_action] (λ option,
      try_except (route_body obj attr_name option) except_AttributeError)).

Definition create_route_map (obj : Instance) (routables : list string)
  : Except Routes :=
  match route_loop obj routables ∅ with
  | (Ok _, routes) => Ok routes
  | (Raise e, _) => Raise e
  end.

(** *** What the loop computes, without the monad *)

Definition option_action (option : RouteOption) (attr : Function)
  : Datatypes.option ActionValue :=
  match option with
  | opt_on_action => _on_action attr
  | opt_after_action => _after_action attr
  end.

Definition claim_entry (option : RouteOption) (attr : Function)
    (e : Datatypes.option RouteEntry) : RouteEntry :=
  let e0 := default empty_entry e in
  set_option option attr
    match option with
    | opt_on_action => set_skip (default false (_skip_schema_validation attr)) e0
    | opt_after_action => e0
    end.

Definition apply_option (attr : Function) (option : RouteOption) (routes : Routes)
  : Except Routes :=
  match option_action option attr with
  | None => Ok routes
  | Some (Unhashable _) => Raise TypeError
  | Some (Hashable action) =>
      Ok (<[action := claim_entry option attr (routes !! action)]> routes)
  end.

Definition apply_name (obj : Instance) (routes : Routes) (attr_name : string)
  : Except Routes :=
  match obj !! attr_name with
  | None => Ok routes
  | Some (Raise AttributeError) => Ok routes
  | Some (Raise e) => Raise e
  | Some (Ok attr) =>
      Except_bind (apply_option attr opt_on_action routes)
        (apply_option attr opt_after_action)
  end.

Fixpoint apply_names (obj : Instance) (routes : Routes) (routables : list string)
  : Except Routes :=
  match routables with
  | [] => Ok routes
  | attr_name :: routables' =>
      Except_bind (apply_name obj routes attr_name)
        (λ routes', apply_names obj routes' routables')
  end.

(** Reading [attr_name] on [obj] raises nothing but [AttributeError], and
    the function it gives carries no action without a hash. *)
Definition well_behaved (obj : Instance) (attr_name : string) : Prop :=
  match obj !! attr_name with
  | None => True
  | Some (Raise e) => e = AttributeError
  | Some (Ok attr) =>
      ∀ option items, option_action option attr ≠ Some (Unhashable items)
  end.

(** A plain function [def name(self, **kwargs)]. *)
Definition plain (name : string) : Function :=
  {| __name__ := name;
     __call__ := λ args kwargs,
       match args with
       | [_] => Ok (VObject name kwargs)
       | _ => Raise TypeError
       end;
     _on_action := None;
     _after_action := None;
     _skip_schema_validation := None |}.

(** An instance with [@on(["Heartbeat"]) def h1], the action being a list. *)
Definition List_action_instance : Instance :=
  {["h1" := Ok (on_inner (Unhashable [VStr "Heartbeat"]) false (plain "h1"))]}.

(** An instance whose attribute [h1] is a property that raises
    [ValueError]. *)
Definition Raising_property_instance : Instance :=
  {["h1" := Raise ValueError]}.

(** An instance with [@after(Action.heartbeat) def h2], an undecorated
    [h1], and a property [status] that raises [AttributeError]. *)
Definition Plain_instance : Instance :=
  <["status" := Raise AttributeError]>
    (<["h2" := Ok (after_inner (Hashable heartbeat) (plain "h2"))]>
       {["h1" := Ok (plain "h1")]}).

End Dynamic.

(** The first embedding inside the second: a function with its actions, an
    entry, and an instance whose attributes are read without raising. *)
Definition dynamic_function (attr : Callable) : Dynamic.Function :=
  {| Dynamic.__name__ := __name__ attr;
     Dynamic.__call__ := __call__ attr;
     Dynamic._on_action := Dynamic.Hashable <$> _on_action attr;
     Dynamic._after_action := Dynamic.Hashable <$> _after_action attr;
     Dynamic._skip_schema_validation := _skip_schema_validation attr |}.

Definition dynamic_entry (e : RouteEntry) : Dynamic.RouteEntry :=
  {| Dynamic.entry_on_action := dynamic_function <$> entry_on_action e;
     Dynamic.entry_after_action := dynamic_function <$> entry_after_action e;
     Dynamic.entry_skip_schema_validation := entry_skip_schema_validation e |}.

Definition dynamic_instance (obj : Instance) : Dynamic.Instance :=
  (λ attr, Ok (dynamic_function attr)) <$> obj.

(** * Proofs *)

(** ** The loop, run *)

Section route_loop.
Context (obj : Instance).
Implicit Types (routes : Routes) (attr : Callable) (action : Action).

Lemma route_body_absent attr_name option routes :
  obj !! attr_name = None →
  route_body obj attr_name option routes = (Raise AttributeError, routes).
Proof.
  intros Hobj. cbv beta iota delta [route_body bind lift getattr].
  by rewrite Hobj.
Qed.

Lemma route_body_untagged attr_name option attr routes :
  obj !! attr_name = Some attr →
  option_action option attr = None →
  route_body obj attr_name option routes = (Raise AttributeError, routes).
Proof.
  intros Hobj Htag. cbv beta iota delta [route_body bind lift getattr].
  rewrite Hobj. destruct option; simpl in *; by rewrite Htag.
Qed.

Lemma route_body_tagged attr_name option attr action routes :
  obj !! attr_name = Some attr →
  option_action option attr = Some action →
  route_body obj attr_name option routes =
    (Ok tt, <[action := claim_entry option attr (routes !! action)]> routes).
Proof.
  intros Hobj Htag.
  assert (getattr_option attr option = Ok action) as Hget.
  { destruct option; simpl in *; by rewrite Htag. }
  cbv beta iota zeta delta
    [route_body bind lift getattr contains get ret raise put setitem
     setitem_inner claim_entry].
  rewrite Hobj, Hget.
  destruct (routes !! action) as [e|] eqn:He.
  - rewrite bool_decide_eq_true_2 by eauto.
    destruct option; rewrite ?He, ?lookup_insert_eq;
      by rewrite ?insert_insert_eq.
  - rewrite bool_decide_eq_false_2 by (intros [? ?]; congruence).
    destruct option; rewrite ?lookup_insert_eq;
      by rewrite ?insert_insert_eq.
Qed.

(** One pass of the [try] statement never raises. *)
Lemma try_route_body attr_name option routes :
  try_except (route_body obj attr_name option) except_AttributeError routes =
    (Ok tt, match obj !! attr_name with
            | Some attr => apply_option attr option routes
            | None => routes
            end).
Proof.
  unfold try_except, apply_option.
  destruct (obj !! attr_name) as [attr|] eqn:Hobj.
  - destruct (option_action option attr) as [action|] eqn:Htag.
    + by erewrite route_body_tagged.
    + by erewrite route_body_untagged.
  - by rewrite route_body_absent.
Qed.

Lemma route_loop_run routables routes :
  route_loop obj routables routes = (Ok tt, foldl (apply_name obj) routes routables).
Proof.
  revert routes. induction routables as [|attr_name routables IH]; intros routes.
  - done.
  - unfold route_loop in *. cbn [for_ foldl]. unfold bind at 1.
    unfold bind at 1. rewrite try_route_body.
    unfold bind at 1. rewrite try_route_body. cbn.
    rewrite IH. f_equal. f_equal. unfold apply_name.
    by destruct (obj !! attr_name).
Qed.

Lemma create_route_map_run routables :
  create_route_map obj routables = Ok (foldl (apply_name obj) ∅ routables).
Proof. unfold create_route_map. by rewrite route_loop_run. Qed.

End route_loop.

(** ** The entry of an action, read off the registry *)

Section entry_spec.
Context (obj : Instance).
Implicit Types (routes : Routes) (attr : Callable) (action : Action).

Lemma apply_option_lookup attr option routes action :
  apply_option attr option routes !! action =
    if decide (option_action option attr = Some action)
    then Some (claim_entry option attr (routes !! action))
    else routes !! action.
Proof.
  unfold apply_option.
  destruct (option_action option attr) as [a|] eqn:Htag.
  - case_decide as Ha.
    + injection Ha as ->. by rewrite lookup_insert_eq.
    + rewrite lookup_insert_ne; [done | congruence].
  - by case_decide.
Qed.

Lemma resolved_snoc routables attr_name :
  resolved obj (routables ++ [attr_name]) =
    resolved obj routables ++ option_list (obj !! attr_name).
Proof.
  unfold resolved. rewrite omap_app. f_equal.
Qed.

Lemma claimants_snoc option routables attr_name action :
  claimants option obj (routables ++ [attr_name]) action =
    claimants option obj routables action ++
    match obj !! attr_name with
    | Some attr =>
        if decide (option_action option attr = Some action) then [attr] else []
    | None => []
    end.
Proof.
  unfold claimants. rewrite resolved_snoc, filter_app. f_equal.
  destruct (obj !! attr_name) as [attr|]; [|done].
  change (option_list (Some attr)) with [attr].
  rewrite filter_cons, filter_nil. by case_decide.
Qed.

Lemma entry_spec_snoc routables attr_name action :
  entry_spec obj (routables ++ [attr_name]) action =
    apply_name obj (from_option (λ e, {[action := e]}) ∅
                      (entry_spec obj routables action)) attr_name !! action.
Proof.
  unfold entry_spec, apply_name. rewrite !claimants_snoc.
  destruct (obj !! attr_name) as [attr|].
  - rewrite !apply_option_lookup.
    repeat case_decide; rewrite ?app_nil_r, ?last_snoc;
      destruct (last (claimants opt_on_action obj routables action)) as [p|];
      destruct (last (claimants opt_after_action obj routables action)) as [q|];
      cbn; by rewrite ?lookup_singleton_eq, ?lookup_empty.
  - rewrite !app_nil_r.
    destruct (last (claimants opt_on_action obj routables action));
      destruct (last (claimants opt_after_action obj routables action));
      cbn; by rewrite ?lookup_singleton_eq, ?lookup_empty.
Qed.

Lemma apply_name_lookup_ext routes routes' attr_name action :
  routes !! action = routes' !! action →
  apply_name obj routes attr_name !! action =
  apply_name obj routes' attr_name !! action.
Proof.
  intros Heq. unfold apply_name. destruct (obj !! attr_name); [|done].
  rewrite !apply_option_lookup. repeat case_decide; by rewrite ?Heq.
Qed.

(** The entry the loop leaves for an action is [entry_spec]. *)
Lemma foldl_apply_name_lookup routables action :
  foldl (apply_name obj) ∅ routables !! action = entry_spec obj routables action.
Proof.
  induction routables as [|attr_name routables IH] using rev_ind.
  - done.
  - rewrite foldl_snoc, entry_spec_snoc.
    apply apply_name_lookup_ext. rewrite IH.
    destruct (entry_spec obj routables action); cbn;
      by rewrite ?lookup_singleton_eq, ?lookup_empty.
Qed.

End entry_spec.

(** ** Claimants *)

Section claimants.
Context (obj : Instance) (option : RouteOption) (action : Action).
Implicit Types (attr : Callable) (routables : list string).

Lemma claimants_app l1 l2 :
  claimants option obj (l1 ++ l2) action =
    claimants option obj l1 action ++ claimants option obj l2 action.
Proof. unfold claimants, resolved. by rewrite omap_app, filter_app. Qed.

Lemma elem_of_claimants routables attr :
  attr ∈ claimants option obj routables action ↔
  option_action option attr = Some action ∧
  ∃ attr_name, attr_name ∈ routables ∧ obj !! attr_name = Some attr.
Proof.
  unfold claimants, resolved.
  by rewrite list_elem_of_filter, list_elem_of_omap.
Qed.

Lemma claimants_nil routables :
  (∀ attr_name attr, attr_name ∈ routables → obj !! attr_name = Some attr →
     option_action option attr ≠ Some action) →
  claimants option obj routables action = [].
Proof.
  intros Hnone. apply elem_of_nil_inv. intros attr Hin.
  apply elem_of_claimants in Hin as (Htag & n & Hn & Hobj).
  by eapply Hnone.
Qed.

Lemma claimants_singleton attr_name attr :
  obj !! attr_name = Some attr →
  option_action option attr = Some action →
  claimants option obj [attr_name] action = [attr].
Proof.
  intros Hobj Htag. unfold claimants, resolved. cbn. rewrite Hobj.
  rewrite filter_cons, filter_nil. by case_decide.
Qed.

(** The claimant that no later name displaces is the last one. *)
Lemma last_claimants_later l1 attr_name l2 attr :
  obj !! attr_name = Some attr →
  option_action option attr = Some action →
  (∀ n' attr', n' ∈ l2 → obj !! n' = Some attr' →
     option_action option attr' ≠ Some action) →
  last (claimants option obj (l1 ++ attr_name :: l2) action) = Some attr.
Proof.
  intros Hobj Htag Hlater.
  change (attr_name :: l2) with ([attr_name] ++ l2).
  rewrite !claimants_app, (claimants_nil l2), app_nil_r by done.
  erewrite claimants_singleton by done. apply last_snoc.
Qed.

Lemma last_claimants_unique routables attr_name attr :
  attr_name ∈ routables →
  obj !! attr_name = Some attr →
  option_action option attr = Some action →
  (∀ n' attr', n' ∈ routables → obj !! n' = Some attr' →
     option_action option attr' = Some action → attr' = attr) →
  last (claimants option obj routables action) = Some attr.
Proof.
  intros Hin Hobj Htag Huniq.
  assert (attr ∈ claimants option obj routables action) as Hmem.
  { apply elem_of_claimants. eauto. }
  destruct (last (claimants option obj routables action)) as [attr'|] eqn:Hlast.
  - f_equal. apply last_Some_elem_of, elem_of_claimants in Hlast
      as (Htag' & n' & Hn' & Hobj').
    by eapply Huniq.
  - apply last_None in Hlast. rewrite Hlast in Hmem.
    by apply not_elem_of_nil in Hmem.
Qed.

End claimants.

(** A name that resolves to nothing, or to an attribute with neither tag,
    leaves the loop's state as it was. *)
Lemma apply_name_skip (obj : Instance) (routes : Routes) (attr_name : string) :
  (∀ attr, obj !! attr_name = Some attr →
     _on_action attr = None ∧ _after_action attr = None) →
  apply_name obj routes attr_name = routes.
Proof.
  intros Hskip. unfold apply_name.
  destruct (obj !! attr_name) as [attr|]; [|done].
  destruct (Hskip attr eq_refl) as [Hon Hafter].
  unfold apply_option. cbn. by rewrite Hon, Hafter.
Qed.

Lemma foldl_apply_name_skip (obj : Instance) (l1 l2 : list string)
    (attr_name : string) :
  (∀ attr, obj !! attr_name = Some attr →
     _on_action attr = None ∧ _after_action attr = None) →
  foldl (apply_name obj) ∅ (l1 ++ attr_name :: l2) =
  foldl (apply_name obj) ∅ (l1 ++ l2).
Proof.
  intros Hskip. rewrite !foldl_app. cbn [foldl].
  by rewrite apply_name_skip.
Qed.

(** ** The registry *)

Lemma append_if_absent_run (name : string) (routables : list string) :
  append_if_absent name routables =
    (Ok tt, if bool_decide (name ∈ routables) then routables
            else routables ++ [name]).
Proof.
  cbv beta iota delta [append_if_absent bind get].
  by destruct (bool_decide (name ∈ routables)).
Qed.

Lemma elem_of_appended (name : string) (routables : list string) :
  name ∈ (if bool_decide (name ∈ routables) then routables
          else routables ++ [name]).
Proof.
  destruct (bool_decide (name ∈ routables)) eqn:Hin.
  - by apply bool_decide_eq_true in Hin.
  - apply elem_of_app. right. by apply list_elem_of_singleton.
Qed.

Lemma on_run (action : Action) (skip : bool) (func : Callable)
    (routables : list string) :
  on action skip func routables =
    (Ok (on_inner action skip func),
     if bool_decide (__name__ func ∈ routables) then routables
     else routables ++ [__name__ func]).
Proof.
  cbv beta iota zeta delta [on bind]. by rewrite append_if_absent_run.
Qed.

Lemma after_run (action : Action) (func : Callable) (routables : list string) :
  after action func routables =
    (Ok (after_inner action func),
     if bool_decide (__name__ func ∈ routables) then routables
     else routables ++ [__name__ func]).
Proof.
  cbv beta iota zeta delta [after bind]. by rewrite append_if_absent_run.
Qed.

Lemma on_typed_run (members : list Action) (call_type : CallType) (skip : bool)
    (func : Callable) (routables : list string) :
  on_typed members call_type skip func routables =
    match Enum_call members (type_name call_type) with
    | Ok action =>
        (Ok (on_typed_inner action call_type skip func),
         if bool_decide (__name__ func ∈ routables) then routables
         else routables ++ [__name__ func])
    | Raise e => (Raise e, routables)
    end.
Proof.
  cbv beta iota zeta delta [on_typed bind lift].
  destruct (Enum_call members (type_name call_type)); [|done].
  by rewrite append_if_absent_run.
Qed.

Lemma NoDup_fmap_inj_on {A B} (f : A → B) (l : list A) (x y : A) :
  NoDup (f <$> l) → x ∈ l → y ∈ l → f x = f y → x = y.
Proof.
  induction l as [|z l IH]; intros Hnodup Hx Hy Hf.
  - by apply not_elem_of_nil in Hx.
  - rewrite fmap_cons in Hnodup. apply NoDup_cons in Hnodup as [Hz Hnodup].
    apply elem_of_cons in Hx as [->|Hx]; apply elem_of_cons in Hy as [->|Hy].
    + done.
    + destruct Hz. rewrite Hf. by apply list_elem_of_fmap_2.
    + destruct Hz. rewrite <- Hf. by apply list_elem_of_fmap_2.
    + by apply IH.
Qed.

Lemma Enum_call_Ok (members : list Action) (value : string) (a : Action) :
  Enum_call members value = Ok a → a ∈ members ∧ member_value a = value.
Proof.
  unfold Enum_call.
  destruct (List.find _ members) as [m|] eqn:Hfind; [|done].
  intros [= <-]. apply find_some in Hfind as [Hin Hval].
  split; [by apply list_elem_of_In | by apply bool_decide_eq_true in Hval].
Qed.

Lemma Enum_call_member (members : list Action) (value : string) :
  (∃ a, a ∈ members ∧ member_value a = value) →
  ∃ a, Enum_call members value = Ok a.
Proof.
  intros (a & Hin & Hval). unfold Enum_call.
  destruct (List.find _ members) as [m|] eqn:Hfind; [by eauto|].
  apply list_elem_of_In in Hin.
  apply (find_none _ _ Hfind) in Hin. cbn in Hin.
  by rewrite bool_decide_eq_true_2 in Hin.
Qed.

Lemma Enum_call_Raise (members : list Action) (value : string) (e : exn) :
  Enum_call members value = Raise e →
  e = ValueError ∧ ¬ ∃ a, a ∈ members ∧ member_value a = value.
Proof.
  intros Hcall. split.
  - unfold Enum_call in Hcall. destruct (List.find _ members); congruence.
  - intros Hex. apply Enum_call_member in Hex as [a Ha]. congruence.
Qed.

(** ** Binding the typed wrapper's parameters *)

Lemma kwargs_get_None (key : string) (kwargs : Kwargs) :
  kwargs_get key kwargs = None ↔ key ∉ kwargs.*1.
Proof.
  unfold kwargs_get. induction kwargs as [|[k v] kwargs IH]; cbn.
  - split; [intros _; apply not_elem_of_nil | done].
  - rewrite not_elem_of_cons. case_bool_decide as Hk; cbn in *.
    + split; [done | intros [Hne _]; congruence].
    + rewrite IH. split; [by split; [congruence|] | by intros [_ ?]].
Qed.

Lemma bind_self_kwargs_positional (self : Value) (kwargs : Kwargs) :
  bind_self_kwargs [self] kwargs =
    if decide ("self" ∈ kwargs.*1) then Raise TypeError else Ok (self, kwargs).
Proof.
  unfold bind_self_kwargs.
  destruct (kwargs_get "self" kwargs) as [v|] eqn:Hget; case_decide as Hin.
  - done.
  - apply kwargs_get_None in Hin. congruence.
  - apply kwargs_get_None in Hget. done.
  - done.
Qed.

(** * The claims *)



(** C2.  The function [on(action, skip_schema_validation)(func)] returns,
    called on any positional and keyword arguments, gives exactly what
    [func] gives on them: the value it returns or the exception it raises.
    This holds whatever the registry was and whatever attributes [func]
    carried. *)
Theorem on_pass_through (action : Action) (skip : bool) (func : Callable)
    (routables : list string) (args : list Value) (kwargs : Kwargs) :
  ∃ inner, (on action skip func routables).1 = Ok inner ∧
    __call__ inner args kwargs = __call__ func args kwargs.
Proof.
  exists (on_inner action skip func). split.
  - by rewrite on_run.
  - reflexivity.
Qed.

(** C3, as stated, fails: a field named [self] is bound to the wrapper's own
    parameter.  With a request class that accepts any fields, calling the
    wrapper with the instance and [self=1] raises [TypeError] before the
    class is called, while building the request from the same field and
    calling the handler returns. *)
Lemma on_typed_self_field_counterexample :
  (on_typed sample_members (open_type "Reset") false (typed "on_reset") []).1 =
    Ok (on_typed_inner reset (open_type "Reset") false (typed "on_reset")) ∧
  __call__ (on_typed_inner reset (open_type "Reset") false (typed "on_reset"))
      [VStr "cp"] [("self", VInt 1)] = Raise TypeError ∧
  Except_bind (construct (open_type "Reset") [("self", VInt 1)])
      (λ request, __call__ (typed "on_reset") [VStr "cp"; request] []) =
    Ok (VObject "Reset" [("self", VInt 1)]).
Proof. split; [reflexivity|]. split; reflexivity. Qed.

(** C3, amended.  The function [on_typed(call_type)(func)] returns, called
    with the instance and keyword fields none of which is named [self],
    builds the request from the fields and calls [func] on the instance and
    the request: when the constructor returns [request] the result is that
    of [func(self, request)], and when it raises, the same exception is
    raised.  With a field named [self] the call raises [TypeError], and
    neither the constructor nor [func] is called. *)
Theorem on_typed_call (members : list Action) (call_type : CallType)
    (skip : bool) (func inner : Callable) (routables : list string)
    (self : Value) (kwargs : Kwargs) :
  (on_typed members call_type skip func routables).1 = Ok inner →
  ("self" ∉ kwargs.*1 →
     __call__ inner [self] kwargs =
       Except_bind (construct call_type kwargs)
         (λ request, __call__ func [self; request] []) ∧
     (∀ request, construct call_type kwargs = Ok request →
        __call__ inner [self] kwargs = __call__ func [self; request] []) ∧
     (∀ e, construct call_type kwargs = Raise e →
        __call__ inner [self] kwargs = Raise e)) ∧
  ("self" ∈ kwargs.*1 → __call__ inner [self] kwargs = Raise TypeError).
Proof.
  rewrite on_typed_run.
  destruct (Enum_call members (type_name call_type)) as [action|e0]; [|done].
  intros [= <-]. cbn [__call__ on_typed_inner].
  rewrite bind_self_kwargs_positional. split.
  - intros Hnotin. rewrite decide_False by done. cbn.
    split; [done|]. split.
    + intros request Hreq. by rewrite Hreq.
    + intros e He. by rewrite He.
  - intros Hin. by rewrite decide_True.
Qed.

Lemma on_typed_call_witness :
  __call__ (on_typed_inner reset (sample_type "Reset") false (typed "on_reset"))
      [VStr "cp"] [("reason", VStr "Hard")] =
    Ok (VObject "Reset" [("reason", VStr "Hard")]) ∧
  __call__ (on_typed_inner reset (sample_type "Reset") false (typed "on_reset"))
      [VStr "cp"] [("type", VStr "Hard")] =
    Raise TypeError ∧
  __call__ (on_typed_inner reset (open_type "Reset") false (typed "on_reset"))
      [VStr "cp"] [("self", VInt 1)] =
    Raise TypeError.
Proof.
  pose proof (on_typed_call sample_members (sample_type "Reset") false
                (typed "on_reset")
                (on_typed_inner reset (sample_type "Reset") false (typed "on_reset"))
                [] (VStr "cp")) as Hcall.
  split; [|split].
  - destruct (proj1 (Hcall [("reason", VStr "Hard")] eq_refl)) as (_ & Hok & _).
    + intros Hin. apply list_elem_of_singleton in Hin. discriminate Hin.
    + exact (Hok (VObject "Reset" [("reason", VStr "Hard")]) eq_refl).
  - destruct (proj1 (Hcall [("type", VStr "Hard")] eq_refl)) as (_ & _ & Hraise).
    + intros Hin. apply list_elem_of_singleton in Hin. discriminate Hin.
    + exact (Hraise TypeError eq_refl).
  - apply (on_typed_call sample_members (open_type "Reset") false
             (typed "on_reset")
             (on_typed_inner reset (open_type "Reset") false (typed "on_reset"))
             [] (VStr "cp") [("self", VInt 1)] eq_refl).
    apply list_elem_of_singleton. reflexivity.
Defined.

(** C4, as stated, fails: [enums.Action(call_type.__name__)] finds the
    member by its value, not by its name.  With the member
    [boot_notification = "BootNotification"], the request class named
    [BootNotification] gets the member named [boot_notification], and the
    request class named [boot_notification] gets none: the decorator raises
    [ValueError]. *)
Lemma on_typed_action_by_name_counterexample :
  (∃ inner a,
     (on_typed [boot_notification] (sample_type "BootNotification") false
        (typed "on_boot") []).1 = Ok inner ∧
     _on_action inner = Some a ∧
     member_name a ≠ type_name (sample_type "BootNotification")) ∧
  member_name boot_notification = type_name (sample_type "boot_notification") ∧
  (on_typed [boot_notification] (sample_type "boot_notification") false
     (typed "on_boot") []).1 = Raise ValueError.
Proof.
  split; [|split; reflexivity].
  exists (on_typed_inner boot_notification (sample_type "BootNotification")
            false (typed "on_boot")), boot_notification.
  split; [reflexivity|]. split; [reflexivity|]. discriminate.
Qed.

(** C4, amended.  When the name of the request class is the value of a
    member of the enumeration, [on_typed(call_type)(func)] returns a function
    that carries as [_on_action] a member whose value is the type's name:
    the one calling the enumeration on the name finds, which is the only one
    when values are not repeated.  [on_typed] takes no action; every request
    class with the same name gets the same action, whatever the handler, the
    flag and the registry. *)
Theorem on_typed_action_by_value (members : list Action) (call_type : CallType)
    (skip : bool) (func : Callable) (routables : list string) (a : Action) :
  a ∈ members →
  member_value a = type_name call_type →
  ∃ inner a',
    (on_typed members call_type skip func routables).1 = Ok inner ∧
    _on_action inner = Some a' ∧
    Enum_call members (type_name call_type) = Ok a' ∧
    a' ∈ members ∧
    member_value a' = type_name call_type ∧
    (NoDup (member_value <$> members) → a' = a) ∧
    (∀ call_type' skip' func' routables',
       type_name call_type' = type_name call_type →
       ∃ inner',
         (on_typed members call_type' skip' func' routables').1 = Ok inner' ∧
         _on_action inner' = Some a').
Proof.
  intros Hin Hval.
  destruct (Enum_call_member members (type_name call_type)) as [a' Hcall];
    [by eauto|].
  pose proof (Enum_call_Ok _ _ _ Hcall) as [Hin' Hval'].
  exists (on_typed_inner a' call_type skip func), a'.
  split; [by rewrite on_typed_run, Hcall|].
  do 4 (split; [done|]). split.
  - intros Hnodup. eapply NoDup_fmap_inj_on; [done..|congruence].
  - intros call_type' skip' func' routables' Hname.
    exists (on_typed_inner a' call_type' skip' func').
    by rewrite on_typed_run, Hname, Hcall.
Qed.

Lemma on_typed_action_by_value_witness :
  ∃ inner a',
    (on_typed sample_members (sample_type "Reset") true (typed "on_reset")
       ["h1"]).1 = Ok inner ∧
    _on_action inner = Some a' ∧
    member_name a' = "reset" ∧
    member_value a' = "Reset".
Proof.
  destruct (on_typed_action_by_value sample_members (sample_type "Reset") true
              (typed "on_reset") ["h1"] reset)
    as (inner & a' & Hrun & Hon & Hcall & _ & Hval & _).
  - apply elem_of_cons. right. apply elem_of_cons. right.
    apply list_elem_of_singleton. reflexivity.
  - reflexivity.
  - exists inner, a'. split; [exact Hrun|]. split; [exact Hon|].
    split; [|exact Hval]. injection Hcall as <-. reflexivity.
Defined.

(** C5.  [create_route_map] returns, and for each action and each role its
    entry holds at most one handler: the attribute of the last name, in
    registry order, that resolves on the instance to an attribute carrying
    that action in that role.  In particular a claimant that no later name
    displaces is the one the entry holds, whatever came before it. *)
Theorem create_route_map_last_wins (obj : Instance) (routables : list string) :
  ∃ routes, create_route_map obj routables = Ok routes ∧
    ∀ option action,
      (routes !! action ≫= entry_option option) =
        last (claimants option obj routables action) ∧
      (∀ l1 attr_name l2 attr,
         routables = l1 ++ attr_name :: l2 →
         obj !! attr_name = Some attr →
         option_action option attr = Some action →
         (∀ n' attr', n' ∈ l2 → obj !! n' = Some attr' →
            option_action option attr' ≠ Some action) →
         (routes !! action ≫= entry_option option) = Some attr).
Proof.
  eexists. split; [apply create_route_map_run|].
  intros option action.
  assert (foldl (apply_name obj) ∅ routables !! action ≫= entry_option option
          = last (claimants option obj routables action)) as Hlast.
  { rewrite foldl_apply_name_lookup. unfold entry_spec.
    destruct (last (claimants opt_on_action obj routables action)) eqn:Hon;
      destruct (last (claimants opt_after_action obj routables action)) eqn:Hafter;
      destruct option; cbn; by rewrite ?Hon, ?Hafter. }
  split; [exact Hlast|].
  intros l1 attr_name l2 attr -> Hobj Htag Hlater.
  rewrite Hlast. by apply last_claimants_later.
Qed.

Lemma create_route_map_last_wins_witness :
  ∃ routes,
    create_route_map Two_resets_instance ["first_reset"; "second_reset"] = Ok routes ∧
    (routes !! reset ≫= entry_option opt_on_action) = Some second_reset.
Proof.
  destruct (create_route_map_last_wins Two_resets_instance
              ["first_reset"; "second_reset"]) as (routes & Hrun & Hlast).
  exists routes. split; [exact Hrun|].
  apply (proj2 (Hlast opt_on_action reset) ["first_reset"] "second_reset" []).
  - reflexivity.
  - reflexivity.
  - reflexivity.
  - intros n' attr' Hn'. by apply not_elem_of_nil in Hn'.
Defined.

(** ** The registry under registrations *)








(** ** Names that contribute nothing *)

(** C7.  [create_route_map] returns, and a registered name that does not
    resolve on the instance changes nothing: the map is the one built from
    the registry without that name.  An action that no resolved attribute
    carries, as primary or as post action, has no entry in the map, and
    every entry of the map holds a handler. *)
Theorem create_route_map_absent_names (obj : Instance) (routables : list string) :
  ∃ routes, create_route_map obj routables = Ok routes ∧
    (∀ l1 attr_name l2,
       routables = l1 ++ attr_name :: l2 →
       obj !! attr_name = None →
       create_route_map obj (l1 ++ l2) = Ok routes) ∧
    (∀ action,
       (∀ n attr, n ∈ routables → obj !! n = Some attr →
          _on_action attr ≠ Some action ∧ _after_action attr ≠ Some action) →
       routes !! action = None) ∧
    (∀ action entry,
       routes !! action = Some entry →
       is_Some (entry_on_action entry) ∨ is_Some (entry_after_action entry)).
Proof.
  eexists. split; [apply create_route_map_run|]. split; [|split].
  - intros l1 attr_name l2 -> Hobj. rewrite create_route_map_run. f_equal.
    symmetry. apply foldl_apply_name_skip. intros attr Hattr. congruence.
  - intros action Hnone. rewrite foldl_apply_name_lookup. unfold entry_spec.
    rewrite !claimants_nil; [done | |].
    + intros n attr Hn Hobj. by destruct (Hnone n attr Hn Hobj).
    + intros n attr Hn Hobj. by destruct (Hnone n attr Hn Hobj).
  - intros action entry. rewrite foldl_apply_name_lookup. unfold entry_spec.
    destruct (last (claimants opt_on_action obj routables action));
      destruct (last (claimants opt_after_action obj routables action));
      intros [= <-]; cbn; eauto.
Qed.

Lemma create_route_map_absent_names_witness :
  ∃ routes,
    create_route_map C_instance ["on_reset"; "h1"; "h2"] = Ok routes ∧
    create_route_map C_instance ["h1"; "h2"] = Ok routes ∧
    routes !! reset = None.
Proof.
  destruct (create_route_map_absent_names C_instance ["on_reset"; "h1"; "h2"])
    as (routes & Hrun & Hskip & Habsent & _).
  exists routes. split; [exact Hrun|]. split.
  - apply (Hskip [] "on_reset" ["h1"; "h2"]); reflexivity.
  - apply Habsent. intros n attr Hn.
    apply elem_of_cons in Hn as [->|Hn]; [intros Hobj; discriminate Hobj|].
    apply elem_of_cons in Hn as [->|Hn];
      [|apply list_elem_of_singleton in Hn as ->];
      intros [= <-]; split; discriminate.
Defined.

(** C8, as stated, fails: for an action with a post handler only, the entry
    has no [_skip_schema_validation] key; the key is written in the
    [_on_action] pass alone. *)
Lemma post_only_skip_flag_counterexample :
  ∃ routes entry,
    create_route_map Post_only_instance ["h2"] = Ok routes ∧
    routes !! heartbeat = Some entry ∧
    entry_on_action entry = None ∧
    entry_after_action entry = Some h2 ∧
    entry_skip_schema_validation entry ≠ Some false.
Proof.
  eexists _, _. split; [apply create_route_map_run|].
  split; [reflexivity|]. split; [reflexivity|]. split; [reflexivity|].
  discriminate.
Qed.

(** C8, amended.  When some registered name resolves to an attribute with
    post action [action] and none resolves to an attribute with primary
    action [action], the entry for [action] holds the post handler and
    nothing else: no primary handler and no [_skip_schema_validation] key,
    so that reading the flag with the default [False] gives [False]. *)
Theorem create_route_map_post_only (obj : Instance) (routables : list string)
    (action : Action) (attr_name : string) (attr : Callable) :
  attr_name ∈ routables →
  obj !! attr_name = Some attr →
  _after_action attr = Some action →
  (∀ n attr', n ∈ routables → obj !! n = Some attr' →
     _on_action attr' ≠ Some action) →
  ∃ routes entry,
    create_route_map obj routables = Ok routes ∧
    routes !! action = Some entry ∧
    entry_on_action entry = None ∧
    entry_after_action entry =
      last (claimants opt_after_action obj routables action) ∧
    is_Some (entry_after_action entry) ∧
    entry_skip_schema_validation entry = None ∧
    default false (entry_skip_schema_validation entry) = false.
Proof.
  intros Hin Hobj Hafter Hno_on.
  assert (attr ∈ claimants opt_after_action obj routables action) as Hmem.
  { apply elem_of_claimants. eauto. }
  destruct (last (claimants opt_after_action obj routables action))
    as [q|] eqn:Hlast.
  2: { apply last_None in Hlast. rewrite Hlast in Hmem.
       by apply not_elem_of_nil in Hmem. }
  eexists _, _. split; [apply create_route_map_run|].
  rewrite foldl_apply_name_lookup. unfold entry_spec.
  rewrite (claimants_nil obj opt_on_action action routables) by done.
  rewrite Hlast. cbn. eauto 10.
Qed.

Lemma create_route_map_post_only_witness :
  ∃ routes entry,
    create_route_map Post_only_instance ["h1"; "h2"] = Ok routes ∧
    routes !! heartbeat = Some entry ∧
    entry_on_action entry = None ∧
    entry_after_action entry =
      last (claimants opt_after_action Post_only_instance ["h1"; "h2"] heartbeat) ∧
    is_Some (entry_after_action entry) ∧
    entry_skip_schema_validation entry = None ∧
    default false (entry_skip_schema_validation entry) = false.
Proof.
  apply (create_route_map_post_only Post_only_instance ["h1"; "h2"] heartbeat
           "h2" h2).
  - apply elem_of_cons. right. apply list_elem_of_singleton. reflexivity.
  - reflexivity.
  - reflexivity.
  - intros n attr' Hn.
    apply elem_of_cons in Hn as [->|Hn];
      [|apply list_elem_of_singleton in Hn as ->].
    + intros Hobj. discriminate Hobj.
    + intros [= <-]. discriminate.
Defined.

(** ** Errors at registration and at build time *)

(** C9, as stated, fails: applying [on_typed] to a request class whose name
    is no value of the action enumeration raises [ValueError] when the
    handler is decorated, and the registry is left as it was. *)
Lemma on_typed_raises_counterexample :
  on_typed sample_members (sample_type "Foo") false (typed "on_foo") ["h1"] =
    (Raise ValueError, ["h1"]).
Proof. reflexivity. Qed.

(** C9, amended.  [on] and [after] return for every action, function and
    registry.  [on_typed] returns when the request class's name is the value
    of a member of the enumeration; otherwise it raises [ValueError] when
    the handler is decorated, and registers nothing. *)
Theorem registration_errors (members : list Action) (routables : list string)
    (func : Callable) :
  (∀ action skip, (on action skip func routables).1 = Ok (on_inner action skip func)) ∧
  (∀ action, (after action func routables).1 = Ok (after_inner action func)) ∧
  (∀ call_type skip,
     ((∃ a, a ∈ members ∧ member_value a = type_name call_type) →
        ∃ inner, (on_typed members call_type skip func routables).1 = Ok inner) ∧
     ((¬ ∃ a, a ∈ members ∧ member_value a = type_name call_type) →
        on_typed members call_type skip func routables =
          (Raise ValueError, routables))).
Proof.
  split; [|split].
  - intros action skip. by rewrite on_run.
  - intros action. by rewrite after_run.
  - intros call_type skip. rewrite on_typed_run. split.
    + intros Hmem. apply Enum_call_member in Hmem as [a ->]. eauto.
    + intros Hnone.
      destruct (Enum_call members (type_name call_type)) as [a|e] eqn:Hcall.
      * apply Enum_call_Ok in Hcall. destruct Hnone. eauto.
      * apply Enum_call_Raise in Hcall as [-> _]. done.
Qed.

Lemma registration_errors_witness :
  (∃ inner,
     (on_typed sample_members (sample_type "Reset") false (typed "on_reset") []).1
       = Ok inner) ∧
  on_typed sample_members (sample_type "Foo") false (typed "on_reset") [] =
    (Raise ValueError, []).
Proof.
  destruct (registration_errors sample_members [] (typed "on_reset"))
    as (_ & _ & Htyped).
  split.
  - apply (proj1 (Htyped (sample_type "Reset") false)).
    exists reset. split; [|reflexivity].
    apply elem_of_cons. right. apply elem_of_cons. right.
    apply list_elem_of_singleton. reflexivity.
  - apply (proj2 (Htyped (sample_type "Foo") false)).
    intros (a & Hin & Hval).
    apply elem_of_cons in Hin as [->|Hin]; [discriminate Hval|].
    apply elem_of_cons in Hin as [->|Hin]; [discriminate Hval|].
    apply list_elem_of_singleton in Hin as ->. discriminate Hval.
Defined.

(** *** The loop over arbitrary objects, run *)

Section dynamic_loop.
Context (obj : Dynamic.Instance).
Implicit Types (routes : Dynamic.Routes) (attr : Dynamic.Function).

Lemma dynamic_route_body_hashable attr_name option attr action routes :
  obj !! attr_name = Some (Ok attr) →
  Dynamic.option_action option attr = Some (Dynamic.Hashable action) →
  Dynamic.route_body obj attr_name option routes =
    (Ok tt, <[action := Dynamic.claim_entry option attr (routes !! action)]> routes).
Proof.
  intros Hobj Htag.
  assert (Dynamic.getattr_option attr option = Ok (Dynamic.Hashable action))
    as Hget.
  { destruct option; simpl in *; by rewrite Htag. }
  cbv beta iota zeta delta
    [Dynamic.route_body bind lift Dynamic.getattr Dynamic.contains get ret
     raise put Dynamic.setitem Dynamic.setitem_inner Dynamic.claim_entry
     Dynamic.hash].
  rewrite Hobj, Hget.
  destruct (routes !! action) as [e|] eqn:He.
  - rewrite bool_decide_eq_true_2 by eauto.
    destruct option; rewrite ?He, ?lookup_insert_eq;
      by rewrite ?insert_insert_eq.
  - rewrite bool_decide_eq_false_2 by (intros [? ?]; congruence).
    destruct option; rewrite ?lookup_insert_eq;
      by rewrite ?insert_insert_eq.
Qed.

Lemma dynamic_route_body_unhashable attr_name option attr items routes :
  obj !! attr_name = Some (Ok attr) →
  Dynamic.option_action option attr = Some (Dynamic.Unhashable items) →
  Dynamic.route_body obj attr_name option routes = (Raise TypeError, routes).
Proof.
  intros Hobj Htag.
  assert (Dynamic.getattr_option attr option = Ok (Dynamic.Unhashable items))
    as Hget.
  { destruct option; simpl in *; by rewrite Htag. }
  cbv beta iota zeta delta
    [Dynamic.route_body bind lift Dynamic.getattr Dynamic.contains
     Dynamic.hash].
  by rewrite Hobj, Hget.
Qed.

Lemma dynamic_route_body_untagged attr_name option attr routes :
  obj !! attr_name = Some (Ok attr) →
  Dynamic.option_action option attr = None →
  Dynamic.route_body obj attr_name option routes = (Raise AttributeError, routes).
Proof.
  intros Hobj Htag.
  cbv beta iota delta [Dynamic.route_body bind lift Dynamic.getattr].
  rewrite Hobj. destruct option; simpl in *; by rewrite Htag.
Qed.

Lemma dynamic_route_body_raises attr_name option routes :
  Dynamic.getattr obj attr_name = Raise AttributeError ∨
  (∃ e, obj !! attr_name = Some (Raise e)) →
  Dynamic.route_body obj attr_name option routes =
    (Except_bind (Dynamic.getattr obj attr_name) (λ _, Ok tt), routes).
Proof.
  intros Hraise.
  cbv beta iota delta [Dynamic.route_body bind lift].
  destruct Hraise as [->|[e He]]; [done|].
  unfold Dynamic.getattr. by rewrite He.
Qed.

(** One pass of the [try] statement: what it leaves, or what it lets
    through. *)
Lemma dynamic_try_route_body attr_name option routes :
  try_except (Dynamic.route_body obj attr_name option)
    Dynamic.except_AttributeError routes =
    match obj !! attr_name with
    | None => (Ok tt, routes)
    | Some (Raise e) =>
        (match e with AttributeError => Ok tt | _ => Raise e end, routes)
    | Some (Ok attr) =>
        match Dynamic.apply_option attr option routes with
        | Ok routes' => (Ok tt, routes')
        | Raise e => (Raise e, routes)
        end
    end.
Proof.
  unfold try_except, Dynamic.apply_option.
  destruct (obj !! attr_name) as [[attr|e]|] eqn:Hobj.
  - destruct (Dynamic.option_action option attr) as [[action|items]|] eqn:Htag.
    + by erewrite dynamic_route_body_hashable.
    + by erewrite dynamic_route_body_unhashable.
    + by erewrite dynamic_route_body_untagged.
  - rewrite dynamic_route_body_raises by eauto.
    unfold Dynamic.getattr. rewrite Hobj. by destruct e.
  - rewrite dynamic_route_body_raises
      by (left; unfold Dynamic.getattr; by rewrite Hobj).
    unfold Dynamic.getattr. by rewrite Hobj.
Qed.

Lemma dynamic_route_loop_cons attr_name routables routes :
  Dynamic.route_loop obj (attr_name :: routables) routes =
    match Dynamic.apply_name obj routes attr_name with
    | Ok routes' => Dynamic.route_loop obj routables routes'
    | Raise e =>
        (Raise e,
         match obj !! attr_name with
         | Some (Ok attr) =>
             match Dynamic.apply_option attr opt_on_action routes with
             | Ok routes' => routes'
             | Raise _ => routes
             end
         | _ => routes
         end)
    end.
Proof.
  unfold Dynamic.route_loop, Dynamic.apply_name. cbn [for_].
  unfold bind at 1. unfold bind at 1. rewrite dynamic_try_route_body.
  destruct (obj !! attr_name) as [[attr|e]|] eqn:Hobj.
  - destruct (Dynamic.apply_option attr opt_on_action routes)
      as [routes1|e1]; [|done].
    unfold bind at 1. rewrite dynamic_try_route_body, Hobj. cbn.
    by destruct (Dynamic.apply_option attr opt_after_action routes1).
  - destruct e; try done.
    unfold bind at 1. by rewrite dynamic_try_route_body, Hobj.
  - unfold bind at 1. by rewrite dynamic_try_route_body, Hobj.
Qed.

Lemma dynamic_route_loop_run routables routes :
  match Dynamic.apply_names obj routes routables with
  | Ok routes' => Dynamic.route_loop obj routables routes = (Ok tt, routes')
  | Raise e => (Dynamic.route_loop obj routables routes).1 = Raise e
  end.
Proof.
  revert routes. induction routables as [|attr_name routables IH]; intros routes.
  - done.
  - cbn [Dynamic.apply_names]. rewrite dynamic_route_loop_cons.
    destruct (Dynamic.apply_name obj routes attr_name) as [routes'|e]; cbn.
    + apply IH.
    + done.
Qed.

Lemma dynamic_create_route_map_run routables :
  Dynamic.create_route_map obj routables = Dynamic.apply_names obj ∅ routables.
Proof.
  unfold Dynamic.create_route_map.
  pose proof (dynamic_route_loop_run routables ∅) as Hrun.
  destruct (Dynamic.apply_names obj ∅ routables) as [routes|e].
  - by rewrite Hrun.
  - destruct (Dynamic.route_loop obj routables ∅) as [[u|e'] routes'];
      cbn in Hrun; congruence.
Qed.

Lemma dynamic_apply_names_app routes l1 l2 :
  Dynamic.apply_names obj routes (l1 ++ l2) =
    Except_bind (Dynamic.apply_names obj routes l1)
      (λ routes', Dynamic.apply_names obj routes' l2).
Proof.
  revert routes. induction l1 as [|n l1 IH]; intros routes; [done|].
  cbn. destruct (Dynamic.apply_name obj routes n); cbn; [apply IH | done].
Qed.

Lemma dynamic_apply_name_Ok routes attr_name :
  (∃ routes', Dynamic.apply_name obj routes attr_name = Ok routes') ↔
  Dynamic.well_behaved obj attr_name.
Proof.
  unfold Dynamic.apply_name, Dynamic.well_behaved, Dynamic.apply_option.
  cbn [Dynamic.option_action].
  destruct (obj !! attr_name) as [[attr|e]|].
  - split.
    + intros [routes' Hok] option items Htag.
      destruct option; cbn in *.
      * by rewrite Htag in Hok.
      * destruct (Dynamic._on_action attr) as [[a|its]|]; cbn in Hok;
          try done; by rewrite Htag in Hok.
    + intros Hwell.
      pose proof (Hwell opt_on_action) as Hon.
      pose proof (Hwell opt_after_action) as Hafter. cbn in Hon, Hafter.
      destruct (Dynamic._on_action attr) as [[a|its]|]; cbn;
        try (by destruct (Hon its));
        destruct (Dynamic._after_action attr) as [[b|its']|]; cbn;
        try (by destruct (Hafter its')); eauto.
  - split.
    + intros [routes' Hok]. by destruct e.
    + intros ->. eauto.
  - split; eauto.
Qed.

Lemma dynamic_apply_names_Ok routes routables :
  (∃ routes', Dynamic.apply_names obj routes routables = Ok routes') ↔
  ∀ attr_name, attr_name ∈ routables → Dynamic.well_behaved obj attr_name.
Proof.
  revert routes. induction routables as [|n routables IH]; intros routes.
  - split; [|by eauto]. intros _ n Hn. by apply not_elem_of_nil in Hn.
  - cbn [Dynamic.apply_names]. split.
    + intros [routes' Hok] n' Hn'.
      destruct (Dynamic.apply_name obj routes n) as [routes1|e] eqn:Hname;
        [|done].
      apply elem_of_cons in Hn' as [->|Hn'].
      * apply (dynamic_apply_name_Ok routes). eauto.
      * cbn in Hok. apply (proj1 (IH routes1)); eauto.
    + intros Hwell.
      destruct (proj2 (dynamic_apply_name_Ok routes n)) as [routes1 ->].
      { apply Hwell. by left. }
      cbn. apply IH. intros n' Hn'. apply Hwell. by right.
Qed.

Lemma dynamic_apply_name_skip routes attr_name attr :
  obj !! attr_name = Some (Ok attr) →
  Dynamic._on_action attr = None →
  Dynamic._after_action attr = None →
  Dynamic.apply_name obj routes attr_name = Ok routes.
Proof.
  intros Hobj Hon Hafter. unfold Dynamic.apply_name, Dynamic.apply_option.
  rewrite Hobj. cbn. by rewrite Hon; cbn; rewrite Hafter.
Qed.

End dynamic_loop.

(** C10, as stated, fails: only [AttributeError] is caught.  An action
    without a hash, which [on] stores as it is, makes [action not in routes]
    raise [TypeError], and a property that raises [ValueError] makes
    [getattr(obj, attr_name)] raise it; [create_route_map] lets both
    through. *)
Lemma create_route_map_raises_counterexample :
  (Dynamic.on (Dynamic.Unhashable [VStr "Heartbeat"]) false (Dynamic.plain "h1")
     []).1 =
    Ok (Dynamic.on_inner (Dynamic.Unhashable [VStr "Heartbeat"]) false
          (Dynamic.plain "h1")) ∧
  Dynamic.create_route_map Dynamic.List_action_instance ["h1"] = Raise TypeError ∧
  Dynamic.create_route_map Dynamic.Raising_property_instance ["h1"] =
    Raise ValueError.
Proof. split; [reflexivity|]. split; reflexivity. Qed.

(** C10, amended.  [create_route_map] returns a map exactly for the
    instances on which reading each registered name raises nothing but
    [AttributeError] and gives no function with an action without a hash.
    On those, a registered name whose attribute carries neither
    [_on_action] nor [_after_action] changes nothing: the map is the one
    built from the registry without that name.  On the others the first
    exception that is no [AttributeError] goes through: the one the
    attribute raised, or [TypeError] for an action without a hash. *)
Theorem create_route_map_returns (obj : Dynamic.Instance)
    (routables : list string) :
  ((∀ attr_name, attr_name ∈ routables → Dynamic.well_behaved obj attr_name) →
   ∃ routes, Dynamic.create_route_map obj routables = Ok routes ∧
     ∀ l1 attr_name l2 attr,
       routables = l1 ++ attr_name :: l2 →
       obj !! attr_name = Some (Ok attr) →
       Dynamic._on_action attr = None →
       Dynamic._after_action attr = None →
       Dynamic.create_route_map obj (l1 ++ l2) = Ok routes) ∧
  (∀ routes, Dynamic.create_route_map obj routables = Ok routes →
     ∀ attr_name, attr_name ∈ routables → Dynamic.well_behaved obj attr_name) ∧
  (∀ l1 attr_name l2,
     routables = l1 ++ attr_name :: l2 →
     (∀ n, n ∈ l1 → Dynamic.well_behaved obj n) →
     (∀ e, obj !! attr_name = Some (Raise e) → e ≠ AttributeError →
        Dynamic.create_route_map obj routables = Raise e) ∧
     (∀ attr option items,
        obj !! attr_name = Some (Ok attr) →
        Dynamic.option_action option attr = Some (Dynamic.Unhashable items) →
        Dynamic.create_route_map obj routables = Raise TypeError)).
Proof.
  split; [|split].
  - intros Hwell.
    destruct (proj2 (dynamic_apply_names_Ok obj ∅ routables) Hwell)
      as [routes Hrun].
    exists routes. split; [by rewrite dynamic_create_route_map_run|].
    intros l1 attr_name l2 attr -> Hobj Hon Hafter.
    rewrite dynamic_create_route_map_run.
    rewrite dynamic_apply_names_app in Hrun |- *.
    destruct (Dynamic.apply_names obj ∅ l1) as [routes1|e]; [|done].
    cbn in Hrun |- *.
    by rewrite (dynamic_apply_name_skip obj routes1 attr_name attr) in Hrun.
  - intros routes Hrun. rewrite dynamic_create_route_map_run in Hrun.
    apply (dynamic_apply_names_Ok obj ∅ routables). eauto.
  - intros l1 attr_name l2 -> Hwell.
    destruct (proj2 (dynamic_apply_names_Ok obj ∅ l1) Hwell) as [routes1 Hrun].
    rewrite dynamic_create_route_map_run, dynamic_apply_names_app, Hrun.
    cbn [Except_bind Dynamic.apply_names]. unfold Dynamic.apply_name. split.
    + intros e Hobj Hne. rewrite Hobj. by destruct e.
    + intros attr option items Hobj Htag. rewrite Hobj.
      unfold Dynamic.apply_option. cbn [Dynamic.option_action].
      destruct option; cbn in Htag.
      * by rewrite Htag.
      * destruct (Dynamic._on_action attr) as [[a|its]|]; cbn;
          try done; by rewrite Htag.
Qed.

Lemma create_route_map_returns_witness :
  ∃ routes,
    Dynamic.create_route_map Dynamic.Plain_instance ["h1"; "status"; "h2"] =
      Ok routes ∧
    Dynamic.create_route_map Dynamic.Plain_instance ["status"; "h2"] = Ok routes.
Proof.
  destruct (proj1 (create_route_map_returns Dynamic.Plain_instance
                     ["h1"; "status"; "h2"]))
    as (routes & Hrun & Hskip).
  - intros n Hn.
    apply elem_of_cons in Hn as [->|Hn]; [|apply elem_of_cons in Hn as [->|Hn]];
      [| |apply list_elem_of_singleton in Hn as ->].
    + change (∀ option items,
                Dynamic.option_action option (Dynamic.plain "h1") ≠
                  Some (Dynamic.Unhashable items)).
      intros option items. destruct option; discriminate.
    + reflexivity.
    + change (∀ option items,
                Dynamic.option_action option
                  (Dynamic.after_inner (Dynamic.Hashable heartbeat)
                     (Dynamic.plain "h2")) ≠
                  Some (Dynamic.Unhashable items)).
      intros option items. destruct option; discriminate.
  - exists routes. split; [exact Hrun|].
    apply (Hskip [] "h1" ["status"; "h2"] (Dynamic.plain "h1"));
      reflexivity.
Defined.

(** * Further properties of the route map *)

(** The handler an entry holds in a role is the last claimant of that role. *)
Lemma lookup_entry_option (obj : Instance) (routables : list string)
    (option : RouteOption) (action : Action) :
  (foldl (apply_name obj) ∅ routables !! action ≫= entry_option option) =
    last (claimants option obj routables action).
Proof.
  rewrite foldl_apply_name_lookup. unfold entry_spec.
  destruct (last (claimants opt_on_action obj routables action)) eqn:Hon;
    destruct (last (claimants opt_after_action obj routables action)) eqn:Hafter;
    destruct option; cbn; by rewrite ?Hon, ?Hafter.
Qed.

(** X1.  Every handler in the map returned by [create_route_map] is an
    attribute the instance has under a registered name, and it carries the
    action of its entry in the role it is stored under: the map never routes
    an action to a handler tagged for another action or role, nor to one the
    instance does not have. *)
Theorem route_handlers_sound (obj : Instance) (routables : list string) :
  ∃ routes, create_route_map obj routables = Ok routes ∧
    ∀ action entry option attr,
      routes !! action = Some entry →
      entry_option option entry = Some attr →
      option_action option attr = Some action ∧
      ∃ attr_name, attr_name ∈ routables ∧ obj !! attr_name = Some attr.
Proof.
  eexists. split; [apply create_route_map_run|].
  intros action entry option attr Hentry Hattr.
  pose proof (lookup_entry_option obj routables option action) as Hlast.
  rewrite Hentry in Hlast. cbn in Hlast. rewrite Hattr in Hlast.
  symmetry in Hlast. apply last_Some_elem_of in Hlast.
  by apply elem_of_claimants in Hlast.
Qed.

(** X2.  In every entry of the map the [_skip_schema_validation] key is
    present exactly when a primary handler is, and its value is the flag of
    the handler the entry holds ([False] when that attribute has none): an
    overwritten primary handler never leaves its flag behind. *)
Theorem route_flag_follows_handler (obj : Instance) (routables : list string) :
  ∃ routes, create_route_map obj routables = Ok routes ∧
    ∀ action entry,
      routes !! action = Some entry →
      (is_Some (entry_skip_schema_validation entry) ↔
       is_Some (entry_on_action entry)) ∧
      (∀ p, entry_on_action entry = Some p →
         entry_skip_schema_validation entry =
           Some (default false (_skip_schema_validation p))).
Proof.
  eexists. split; [apply create_route_map_run|].
  intros action entry. rewrite foldl_apply_name_lookup. unfold entry_spec.
  destruct (last (claimants opt_on_action obj routables action)) as [p|];
    destruct (last (claimants opt_after_action obj routables action)) as [q|];
    intros [= <-]; cbn; (split; [by rewrite <- !not_eq_None_Some|]);
    by intros p' [= <-].
Qed.

(** X3.  The actions of the map are exactly those some registered name
    carries on the instance, as primary or as post action; so the map is
    empty exactly when no registered name resolves to a tagged attribute. *)
Theorem route_actions (obj : Instance) (routables : list string) :
  ∃ routes, create_route_map obj routables = Ok routes ∧
    (∀ action,
       is_Some (routes !! action) ↔
       ∃ attr_name attr, attr_name ∈ routables ∧ obj !! attr_name = Some attr ∧
         (_on_action attr = Some action ∨ _after_action attr = Some action)) ∧
    (routes = ∅ ↔
     ∀ attr_name attr, attr_name ∈ routables → obj !! attr_name = Some attr →
       _on_action attr = None ∧ _after_action attr = None).
Proof.
  eexists. split; [apply create_route_map_run|].
  assert (∀ action,
    is_Some (foldl (apply_name obj) ∅ routables !! action) ↔
    ∃ attr_name attr, attr_name ∈ routables ∧ obj !! attr_name = Some attr ∧
      (_on_action attr = Some action ∨ _after_action attr = Some action))
    as Hdom.
  { intros action. rewrite foldl_apply_name_lookup. unfold entry_spec. split.
    - destruct (last (claimants opt_on_action obj routables action))
        as [p|] eqn:Hon.
      + intros _. apply last_Some_elem_of, elem_of_claimants in Hon
          as (Htag & n & Hn & Hobj). eauto 6.
      + destruct (last (claimants opt_after_action obj routables action))
          as [q|] eqn:Hafter; [|by intros [? ?]].
        intros _. apply last_Some_elem_of, elem_of_claimants in Hafter
          as (Htag & n & Hn & Hobj). eauto 6.
    - intros (n & attr & Hn & Hobj & [Htag|Htag]).
      + assert (attr ∈ claimants opt_on_action obj routables action) as Hmem
          by (apply elem_of_claimants; eauto).
        destruct (last (claimants opt_on_action obj routables action))
          as [p|] eqn:Hon; [by eauto|].
        apply last_None in Hon. rewrite Hon in Hmem.
        by apply not_elem_of_nil in Hmem.
      + assert (attr ∈ claimants opt_after_action obj routables action) as Hmem
          by (apply elem_of_claimants; eauto).
        destruct (last (claimants opt_after_action obj routables action))
          as [q|] eqn:Hafter.
        * by destruct (last (claimants opt_on_action obj routables action)); eauto.
        * apply last_None in Hafter. rewrite Hafter in Hmem.
          by apply not_elem_of_nil in Hmem. }
  split; [exact Hdom|]. split.
  - intros Hempty n attr Hn Hobj.
    destruct (_on_action attr) as [a|] eqn:Hon.
    { assert (is_Some (foldl (apply_name obj) ∅ routables !! a)) as [e He]
        by (apply Hdom; eauto 6).
      by rewrite Hempty, lookup_empty in He. }
    destruct (_after_action attr) as [a|] eqn:Hafter; [|done].
    assert (is_Some (foldl (apply_name obj) ∅ routables !! a)) as [e He]
      by (apply Hdom; eauto 6).
    by rewrite Hempty, lookup_empty in He.
  - intros Hnone. apply map_eq. intros action. rewrite lookup_empty.
    apply eq_None_not_Some. rewrite Hdom.
    intros (n & attr & Hn & Hobj & Htag).
    destruct (Hnone n attr Hn Hobj) as [Hon Hafter].
    destruct Htag; congruence.
Qed.

(** ** What the map depends on *)

Lemma apply_name_agree (obj obj' : Instance) (routes : Routes) (attr_name : string) :
  obj !! attr_name = obj' !! attr_name →
  apply_name obj routes attr_name = apply_name obj' routes attr_name.
Proof. intros Heq. unfold apply_name. by rewrite Heq. Qed.

Lemma carries_tag_false (obj : Instance) (attr_name : string) :
  carries_tag obj attr_name = false →
  ∀ attr, obj !! attr_name = Some attr →
    _on_action attr = None ∧ _after_action attr = None.
Proof.
  unfold carries_tag. intros Htag attr Hobj. rewrite Hobj in Htag.
  by destruct (_on_action attr), (_after_action attr).
Qed.

(** X4.  [create_route_map] reads the instance at the registered names
    only: two instances with the same attributes under every registered
    name get the same map, whatever other attributes they have. *)
Theorem create_route_map_reads_registered (obj obj' : Instance)
    (routables : list string) :
  (∀ attr_name, attr_name ∈ routables → obj !! attr_name = obj' !! attr_name) →
  create_route_map obj routables = create_route_map obj' routables.
Proof.
  intros Hagree. rewrite !create_route_map_run. f_equal.
  generalize (∅ : Routes). induction routables as [|n routables IH];
    intros routes; [done|].
  cbn [foldl]. rewrite (apply_name_agree obj obj') by (apply Hagree; left).
  apply IH. intros n' Hn'. apply Hagree. by right.
Qed.

Lemma create_route_map_reads_registered_witness :
  create_route_map C_with_helper ["h1"; "h2"] =
  create_route_map C_instance ["h1"; "h2"].
Proof.
  apply (create_route_map_reads_registered C_with_helper C_instance ["h1"; "h2"]).
  intros n Hn.
  apply elem_of_cons in Hn as [->|Hn];
    [|apply list_elem_of_singleton in Hn as ->]; reflexivity.
Defined.

(** X5.  The map is the one built from the registered names that resolve on
    the instance to a tagged attribute, in the same order: all the names of
    other classes, and all undecorated overrides, can be dropped from the
    registry at once. *)
Theorem create_route_map_filter (obj : Instance) (routables : list string) :
  create_route_map obj routables =
  create_route_map obj (filter (λ attr_name, carries_tag obj attr_name = true)
                          routables).
Proof.
  rewrite !create_route_map_run. f_equal.
  generalize (∅ : Routes). induction routables as [|n routables IH];
    intros routes; [done|].
  rewrite filter_cons. cbn [foldl]. case_decide as Htag.
  - cbn [foldl]. apply IH.
  - rewrite apply_name_skip; [apply IH|].
    apply carries_tag_false. by destruct (carries_tag obj n).
Qed.

(** X6.  Names added to the registry later leave the entry of an action
    alone when none of them resolves on the instance to an attribute
    carrying that action. *)
Theorem create_route_map_later_names (obj : Instance) (l1 l2 : list string)
    (action : Action) :
  (∀ attr_name attr, attr_name ∈ l2 → obj !! attr_name = Some attr →
     _on_action attr ≠ Some action ∧ _after_action attr ≠ Some action) →
  ∃ routes1 routes2,
    create_route_map obj l1 = Ok routes1 ∧
    create_route_map obj (l1 ++ l2) = Ok routes2 ∧
    routes2 !! action = routes1 !! action.
Proof.
  intros Hother. eexists _, _.
  split; [apply create_route_map_run|]. split; [apply create_route_map_run|].
  rewrite !foldl_apply_name_lookup. unfold entry_spec.
  rewrite !claimants_app.
  rewrite (claimants_nil obj opt_on_action action l2), (claimants_nil obj opt_after_action action l2).
  - by rewrite !app_nil_r.
  - intros n attr Hn Hobj. by destruct (Hother n attr Hn Hobj).
  - intros n attr Hn Hobj. by destruct (Hother n attr Hn Hobj).
Qed.

Lemma create_route_map_later_names_witness :
  ∃ routes1 routes2,
    create_route_map Two_resets_instance ["first_reset"] = Ok routes1 ∧
    create_route_map Two_resets_instance (["first_reset"] ++ ["second_reset"])
      = Ok routes2 ∧
    routes2 !! heartbeat = routes1 !! heartbeat.
Proof.
  apply (create_route_map_later_names Two_resets_instance ["first_reset"]
           ["second_reset"] heartbeat).
  intros n attr Hn. apply list_elem_of_singleton in Hn as ->.
  intros [= <-]. split; discriminate.
Defined.

Lemma last_all_equal {A} (l l' : list A) :
  (∀ x, x ∈ l ↔ x ∈ l') →
  (∀ x y, x ∈ l → y ∈ l → x = y) →
  last l = last l'.
Proof.
  intros Hmem Heq.
  destruct (last l) as [x|] eqn:Hl; destruct (last l') as [y|] eqn:Hl'.
  - f_equal. apply Heq; [by apply last_Some_elem_of|].
    apply Hmem. by apply last_Some_elem_of.
  - apply last_Some_elem_of, Hmem in Hl. apply last_None in Hl'.
    rewrite Hl' in Hl. by apply not_elem_of_nil in Hl.
  - apply last_Some_elem_of, Hmem in Hl'. apply last_None in Hl.
    rewrite Hl in Hl'. by apply not_elem_of_nil in Hl'.
  - done.
Qed.

(** X7.  The order of the registry matters for an action only when two
    registered names compete for it: when, in each role, all the attributes
    carrying the action are one and the same, any registry with the same
    names gives the action the same entry. *)
Theorem create_route_map_order (obj : Instance) (routables routables' : list string)
    (action : Action) :
  (∀ attr_name, attr_name ∈ routables ↔ attr_name ∈ routables') →
  (∀ option n1 n2 attr1 attr2,
     n1 ∈ routables → n2 ∈ routables →
     obj !! n1 = Some attr1 → obj !! n2 = Some attr2 →
     option_action option attr1 = Some action →
     option_action option attr2 = Some action →
     attr1 = attr2) →
  ∃ routes routes',
    create_route_map obj routables = Ok routes ∧
    create_route_map obj routables' = Ok routes' ∧
    routes !! action = routes' !! action.
Proof.
  intros Hnames Hone. eexists _, _.
  split; [apply create_route_map_run|]. split; [apply create_route_map_run|].
  rewrite !foldl_apply_name_lookup. unfold entry_spec.
  assert (∀ option, last (claimants option obj routables action) =
                    last (claimants option obj routables' action)) as Hlast.
  { intros option. apply last_all_equal.
    - intros attr. rewrite !elem_of_claimants.
      split; intros (Htag & n & Hn & Hobj); (split; [done|]);
        exists n; (split; [by apply Hnames | done]).
    - intros attr1 attr2 (Htag1 & n1 & Hn1 & Hobj1)%elem_of_claimants
        (Htag2 & n2 & Hn2 & Hobj2)%elem_of_claimants.
      exact (Hone option n1 n2 attr1 attr2 Hn1 Hn2 Hobj1 Hobj2 Htag1 Htag2). }
  by rewrite !Hlast.
Qed.

Lemma create_route_map_order_witness :
  ∃ routes routes',
    create_route_map C_instance ["h1"; "h2"] = Ok routes ∧
    create_route_map C_instance ["h2"; "h1"] = Ok routes' ∧
    routes !! heartbeat = routes' !! heartbeat.
Proof.
  apply (create_route_map_order C_instance ["h1"; "h2"] ["h2"; "h1"] heartbeat).
  - intros n. rewrite !elem_of_cons, !elem_of_nil. tauto.
  - intros option n1 n2 attr1 attr2 Hn1 Hn2.
    apply elem_of_cons in Hn1 as [->|Hn1];
      [|apply list_elem_of_singleton in Hn1 as ->];
      (apply elem_of_cons in Hn2 as [->|Hn2];
        [|apply list_elem_of_singleton in Hn2 as ->]);
      intros [= <-] [= <-]; destruct option; cbn;
      intros H1 H2; try reflexivity; discriminate.
Defined.

(** * Further properties of the decorators *)

Lemma elem_of_added (x name : string) (routables : list string) :
  x ∈ (if bool_decide (name ∈ routables) then routables else routables ++ [name])
  ↔ x ∈ routables ∨ x = name.
Proof.
  case_bool_decide as Hin.
  - split; [by left|]. by intros [?| ->].
  - by rewrite elem_of_app, list_elem_of_singleton.
Qed.

Lemma elem_of_register (members : list Action) (r : Registration)
    (routables : list string) (x : string) :
  x ∈ (register members r routables).2 ↔
  x ∈ routables ∨
  (registration_returns members r = true ∧ x = __name__ (reg_func r)).
Proof.
  destruct r as [action skip func|call_type skip func|action func];
    cbn [register reg_func registration_returns];
    rewrite ?on_run, ?after_run, ?on_typed_run;
    try destruct (Enum_call members (type_name call_type));
    cbn [fst snd]; rewrite ?elem_of_added.
  - split; [intros [?|?]; [by left | by right] | intros [?|[_ ?]]; [by left | by right]].
  - split; [intros [?|?]; [by left | by right] | intros [?|[_ ?]]; [by left | by right]].
  - split; [by left | intros [?|[? _]]; [done | discriminate]].
  - split; [intros [?|?]; [by left | by right] | intros [?|[_ ?]]; [by left | by right]].
Qed.

Lemma register_all_cons (members : list Action) (r : Registration)
    (rs : list Registration) (routables : list string) :
  register_all members (r :: rs) routables =
    register_all members rs (register members r routables).2.
Proof. reflexivity. Qed.

(** X8.  After any sequence of registrations the registry holds the names it
    held before and the names of the functions whose decoration returned,
    and no other: a handler whose [on_typed] decoration raised is not
    registered, and every other decorated handler is. *)
Theorem routables_content (members : list Action) (rs : list Registration)
    (routables : list string) (name : string) :
  name ∈ register_all members rs routables ↔
  name ∈ routables ∨
  ∃ r, r ∈ rs ∧ registration_returns members r = true ∧
       __name__ (reg_func r) = name.
Proof.
  revert routables. induction rs as [|r rs IH]; intros routables.
  - cbn. split; [by left|]. intros [?|(r & Hr & _)]; [done|].
    by apply not_elem_of_nil in Hr.
  - rewrite register_all_cons, IH, elem_of_register. split.
    + intros [[Hin|[Hret ->]]|(r' & Hr' & Hret & Hname)].
      * by left.
      * right. exists r. by rewrite elem_of_cons; eauto.
      * right. exists r'. by rewrite elem_of_cons; eauto.
    + intros [Hin|(r' & Hr' & Hret & Hname)]; [by left; left|].
      apply elem_of_cons in Hr' as [->|Hr'].
      * left. right. done.
      * right. eauto.
Qed.


(** X10.  Dispatch through the map reaches the typed handler.  When
    [on_typed(call_type, skip)(func)] returned [g], [g] is what the instance
    has under the function's name, and no other registered attribute carries
    its action as primary action, then the entry of that action (the member
    the enumeration call finds for the type's name) holds a primary handler
    with the [_skip_schema_validation] flag [on_typed] was given.  Called
    with the instance and payload fields none of which is named [self], that
    handler builds the request and returns what [func(self, request)]
    returns; a payload field named [self] makes the call raise
    [TypeError]. *)
Theorem on_typed_dispatch (members : list Action) (call_type : CallType)
    (skip : bool) (func g : Callable) (R routables : list string)
    (obj : Instance) :
  (on_typed members call_type skip func R).1 = Ok g →
  (on_typed members call_type skip func R).2 `prefix_of` routables →
  obj !! __name__ func = Some g →
  (∀ n attr, n ∈ routables → obj !! n = Some attr →
     _on_action attr = _on_action g → attr = g) →
  ∃ routes a entry handler,
    create_route_map obj routables = Ok routes ∧
    Enum_call members (type_name call_type) = Ok a ∧
    routes !! a = Some entry ∧
    entry_on_action entry = Some handler ∧
    entry_skip_schema_validation entry = Some skip ∧
    (∀ self kwargs,
       "self" ∉ kwargs.*1 →
       __call__ handler [self] kwargs =
         Except_bind (construct call_type kwargs)
           (λ request, __call__ func [self; request] [])) ∧
    (∀ self kwargs,
       "self" ∈ kwargs.*1 →
       __call__ handler [self] kwargs = Raise TypeError).
Proof.
  rewrite on_typed_run.
  destruct (Enum_call members (type_name call_type)) as [a|e] eqn:Hcall; [|done].
  cbn [fst snd]. intros [= <-] [k Hk] Hobj Huniq.
  assert (__name__ func ∈ routables) as Hin.
  { rewrite Hk. apply elem_of_app. left. apply elem_of_appended. }
  pose proof (last_claimants_unique obj opt_on_action a routables
                (__name__ func) (on_typed_inner a call_type skip func)
                Hin Hobj eq_refl) as Hlast.
  eexists _, a, _, (on_typed_inner a call_type skip func).
  split; [apply create_route_map_run|]. split; [done|].
  rewrite foldl_apply_name_lookup. unfold entry_spec. rewrite Hlast.
  - split; [reflexivity|]. split; [reflexivity|]. split; [reflexivity|].
    cbn [__call__ on_typed_inner]. split; intros self kwargs Hself;
      rewrite bind_self_kwargs_positional.
    + by rewrite decide_False.
    + by rewrite decide_True.
  - intros n' attr' Hn' Hobj' Htag. by apply (Huniq n' attr').
Qed.

Lemma on_typed_dispatch_witness :
  ∃ routes a entry handler,
    create_route_map Typed_instance ["h1"; "on_reset"] = Ok routes ∧
    Enum_call sample_members "Reset" = Ok a ∧
    routes !! a = Some entry ∧
    entry_on_action entry = Some handler ∧
    entry_skip_schema_validation entry = Some true ∧
    (∀ self kwargs,
       "self" ∉ kwargs.*1 →
       __call__ handler [self] kwargs =
         Except_bind (construct (sample_type "Reset") kwargs)
           (λ request, __call__ (typed "on_reset") [self; request] [])) ∧
    (∀ self kwargs,
       "self" ∈ kwargs.*1 →
       __call__ handler [self] kwargs = Raise TypeError).
Proof.
  apply (on_typed_dispatch sample_members (sample_type "Reset") true
           (typed "on_reset") on_reset ["h1"] ["h1"; "on_reset"] Typed_instance).
  - reflexivity.
  - exists []. reflexivity.
  - reflexivity.
  - intros n attr Hn.
    apply elem_of_cons in Hn as [->|Hn];
      [|apply list_elem_of_singleton in Hn as ->].
    + intros Hobj. discriminate Hobj.
    + intros [= <-] _. reflexivity.
Defined.

(** * The two embeddings agree *)

Lemma dynamic_claim_entry (option : RouteOption) (attr : Callable)
    (e : Datatypes.option RouteEntry) :
  Dynamic.claim_entry option (dynamic_function attr) (dynamic_entry <$> e) =
    dynamic_entry (claim_entry option attr e).
Proof. by destruct option, e. Qed.

Lemma dynamic_apply_option (attr : Callable) (option : RouteOption)
    (routes : Routes) :
  Dynamic.apply_option (dynamic_function attr) option (dynamic_entry <$> routes) =
    Ok (dynamic_entry <$> apply_option attr option routes).
Proof.
  unfold Dynamic.apply_option, apply_option.
  assert (Dynamic.option_action option (dynamic_function attr) =
          Dynamic.Hashable <$> option_action option attr) as ->
    by by destruct option.
  destruct (option_action option attr) as [action|]; cbn; [|done].
  by rewrite fmap_insert, lookup_fmap, dynamic_claim_entry.
Qed.

Lemma dynamic_apply_name (obj : Instance) (routes : Routes) (attr_name : string) :
  Dynamic.apply_name (dynamic_instance obj) (dynamic_entry <$> routes) attr_name =
    Ok (dynamic_entry <$> apply_name obj routes attr_name).
Proof.
  unfold Dynamic.apply_name, apply_name, dynamic_instance.
  rewrite lookup_fmap. destruct (obj !! attr_name) as [attr|]; cbn; [|done].
  rewrite dynamic_apply_option. cbn. apply dynamic_apply_option.
Qed.

(** X11.  On an instance whose attributes are all read without raising and
    carry enumeration members as actions, the loop over arbitrary objects
    returns, and its map is the one the loop over typed instances builds:
    the same actions, with the same handlers and flags. *)
Theorem create_route_map_typed (obj : Instance) (routables : list string) :
  ∃ routes,
    create_route_map obj routables = Ok routes ∧
    Dynamic.create_route_map (dynamic_instance obj) routables =
      Ok (dynamic_entry <$> routes).
Proof.
  eexists. split; [apply create_route_map_run|].
  rewrite dynamic_create_route_map_run.
  rewrite <- (fmap_empty dynamic_entry).
  generalize (∅ : Routes).
  induction routables as [|n routables IH]; intros routes; [done|].
  cbn [Dynamic.apply_names foldl]. rewrite dynamic_apply_name. cbn.
  apply IH.
Qed.
